(** * kbdreverse: the keyboard-layout decompiler of winkbdlayouts

    A shallow embedding of [src/tools/kbdreverse.cpp]: the value formatters
    of [SourceGenerator] ([integer], [symbol], [bitMask], [attributes],
    [localeFlags], [pointer], [wchar], [wstring]), the extent reconciliation
    [sortDataStructures], the sentinel-terminated walks of [genVkToBits] and
    [genSubVkToWchar], and the header and root structure that [generate]
    prints.

    Conventions.
    - [Value] is the C++ [__int64]; it is a [Z] in the signed 64-bit range,
      on which [&], [|] and [~] are [Z.land], [Z.lor] and [Z.lnot].
    - [WString] is [string]; a wide character is its code, a [Z].
    - A pointer is a [Z], the null pointer is [0]; pointer arithmetic wraps
      at [2^64].
    - [SymbolTable] is [std::map<Value, WString>]: it is kept as the list of
      its entries in ascending key order, the order in which a range-for
      visits a [std::map]. *)

From Stdlib Require Import ZArith List String Ascii Bool Lia.
From Stdlib Require Import Permutation Sorted DecimalPos.
From Stdlib Require Import DecimalN HexadecimalN.
Import ListNotations.
Open Scope string_scope.
Open Scope Z_scope.

(** ** Strings and printf conversions *)

Module Fmt.

(** Decimal digits of [Decimal.uint], most significant first. *)
Fixpoint dec_digits (d : Decimal.uint) : string :=
  match d with
  | Decimal.Nil => EmptyString
  | Decimal.D0 d => String "0" (dec_digits d)
  | Decimal.D1 d => String "1" (dec_digits d)
  | Decimal.D2 d => String "2" (dec_digits d)
  | Decimal.D3 d => String "3" (dec_digits d)
  | Decimal.D4 d => String "4" (dec_digits d)
  | Decimal.D5 d => String "5" (dec_digits d)
  | Decimal.D6 d => String "6" (dec_digits d)
  | Decimal.D7 d => String "7" (dec_digits d)
  | Decimal.D8 d => String "8" (dec_digits d)
  | Decimal.D9 d => String "9" (dec_digits d)
  end.

(** Hexadecimal digits, in upper case for [%X] and lower case for [%x]. *)
Fixpoint hex_digits (upper : bool) (d : Hexadecimal.uint) : string :=
  let letter (u l : ascii) := if upper then u else l in
  match d with
  | Hexadecimal.Nil => EmptyString
  | Hexadecimal.D0 d => String "0" (hex_digits upper d)
  | Hexadecimal.D1 d => String "1" (hex_digits upper d)
  | Hexadecimal.D2 d => String "2" (hex_digits upper d)
  | Hexadecimal.D3 d => String "3" (hex_digits upper d)
  | Hexadecimal.D4 d => String "4" (hex_digits upper d)
  | Hexadecimal.D5 d => String "5" (hex_digits upper d)
  | Hexadecimal.D6 d => String "6" (hex_digits upper d)
  | Hexadecimal.D7 d => String "7" (hex_digits upper d)
  | Hexadecimal.D8 d => String "8" (hex_digits upper d)
  | Hexadecimal.D9 d => String "9" (hex_digits upper d)
  | Hexadecimal.Da d => String (letter "A" "a")%char (hex_digits upper d)
  | Hexadecimal.Db d => String (letter "B" "b")%char (hex_digits upper d)
  | Hexadecimal.Dc d => String (letter "C" "c")%char (hex_digits upper d)
  | Hexadecimal.Dd d => String (letter "D" "d")%char (hex_digits upper d)
  | Hexadecimal.De d => String (letter "E" "e")%char (hex_digits upper d)
  | Hexadecimal.Df d => String (letter "F" "f")%char (hex_digits upper d)
  end.

(** The digits of a natural number; zero prints as one digit. *)
Definition dec_of_N (n : N) : string := dec_digits (N.to_uint n).
Definition hex_of_N (upper : bool) (n : N) : string :=
  hex_digits upper (N.to_hex_uint n).

Fixpoint repeat_char (c : ascii) (n : nat) : string :=
  match n with
  | O => EmptyString
  | S n => String c (repeat_char c n)
  end.

(** A converted number [sign ++ digits] in a field of width [w] given by a
    [*] argument under the [0] flag: zeros go between the sign and the
    digits; a negative [w] is the [-] flag with width [-w], which pads with
    blanks on the right and switches the [0] flag off. *)
Definition field0 (w : Z) (sign digits : string) : string :=
  if 0 <=? w
  then sign ++ repeat_char "0" (Z.to_nat w - length sign - length digits) ++ digits
  else sign ++ digits
       ++ repeat_char " " (Z.to_nat (- w) - length sign - length digits).

(** [%lld] of a signed 64-bit value. *)
Definition sign_of (v : Z) : string := if v <? 0 then "-" else EmptyString.
Definition lld (v : Z) : string := sign_of v ++ dec_of_N (Z.abs_N v).

(** [%0*lld]: width [w], value [v]. *)
Definition lld_0star (w v : Z) : string :=
  field0 w (sign_of v) (dec_of_N (Z.abs_N v)).

(** The unsigned reading of a [bits]-bit argument. *)
Definition unsigned (bits : Z) (v : Z) : N := Z.to_N (v mod 2 ^ bits).

(** [%0*llX]: width [w], the value read as unsigned 64-bit. *)
Definition llX_0star (w v : Z) : string :=
  field0 w EmptyString (hex_of_N true (unsigned 64 v)).

(** [%0NX] and [%0Nx] of an [int]-sized argument, fixed width [N]. *)
Definition X_0 (w : nat) (v : Z) : string :=
  field0 (Z.of_nat w) EmptyString (hex_of_N true (unsigned 32 v)).
Definition x_0 (w : nat) (v : Z) : string :=
  field0 (Z.of_nat w) EmptyString (hex_of_N false (unsigned 32 v)).

(** [%d] of an [int]. *)
Definition d (v : Z) : string := lld v.

End Fmt.

(** Modelled from the spec: [Format] of [strutils.h] is not among the
    sources; the spec gives [integer] as decimal or fixed-width hexadecimal,
    and [Format] is taken to be [printf] on wide strings, one definition per
    format string that [kbdreverse.cpp] passes to it. *)
Definition Format_lld (value : Z) : string := Fmt.lld value.
Definition Format_0x_0star_llX (hex_digits value : Z) : string :=
  "0x" ++ Fmt.llX_0star hex_digits value.
Definition Format_0x_0star_lld (hex_digits value : Z) : string :=
  "0x" ++ Fmt.lld_0star hex_digits value.
Definition Format_0x_08X (flags : Z) : string := "0x" ++ Fmt.X_0 8 flags.
Definition Format_0x_04X (value : Z) : string := "0x" ++ Fmt.X_0 4 value.
Definition Format_0x_02X (value : Z) : string := "0x" ++ Fmt.X_0 2 value.
Definition Format_bsx_04x (value : Z) : string :=
  String "\" ("x" ++ Fmt.x_0 4 value).

(** ** Symbol tables *)

Abbreviation Value := Z (only parsing).
Abbreviation WString := string (only parsing).
Abbreviation WStringList := (list string) (only parsing).

(** A line of a [Grid] is the list of its columns. *)
Abbreviation Line := (list string) (only parsing).
Abbreviation Grid := (list (list string)) (only parsing).

(** [std::map<Value, WString>], as its entries in ascending key order. *)
Definition SymbolTable := list (Value * WString).

(** Insertion of one pair, as [std::map::insert]: the key order is kept and
    a key that is already present keeps its first mapping. *)
Fixpoint map_insert (e : Value * WString) (t : SymbolTable) : SymbolTable :=
  match t with
  | [] => [e]
  | e' :: r =>
      if fst e <? fst e' then e :: t
      else if fst e =? fst e' then t
      else e' :: map_insert e r
  end.

(** A table built from a braced initialiser list: the declared entries are
    inserted one after the other. *)
Definition SymbolTable_of (decl : list (Value * WString)) : SymbolTable :=
  fold_left (fun t e => map_insert e t) decl [].

(** [symbols.find(value)]; [None] stands for [symbols.end()]. *)
Definition map_find (value : Value) (symbols : SymbolTable) : option WString :=
  option_map snd (find (fun e => fst e =? value) symbols).

(** ** Command line options *)

Record ReverseOptions := {
  input : WString;
  output : WString;
  comment : WString;
  kbd_type : Z;
  num_only : bool;
  hexa_dump : bool;
  gen_resources : bool
}.

(** ** Value formatters *)

Definition integer (value : Value) (hex_digits : Z) : WString :=
  if hex_digits <=? 0 then Format_lld value
  else Format_0x_0star_llX hex_digits value.

Definition symbol (opt : ReverseOptions) (symbols : SymbolTable)
    (value : Value) (hex_digits : Z) : WString :=
  match (if negb (num_only opt) then map_find value symbols else None) with
  | Some name => name
  | None => integer value hex_digits
  end.

Definition empty (s : WString) : bool :=
  match s with EmptyString => true | _ => false end.

(** [if (!str.empty()) str += L" | "; str += s;] *)
Definition add_term (str s : WString) : WString :=
  (if negb (empty str) then str ++ " | " else str) ++ s.

(** The loop of [bitMask] over the entries of the table: [inl] is the early
    return of the zero symbol, [inr] the accumulators [str] and [bits] at
    the end of the loop. *)
Fixpoint bitMask_loop (symbols : SymbolTable) (value : Value)
    (str : WString) (bits : Value) : WString + (WString * Value) :=
  match symbols with
  | [] => inr (str, bits)
  | sym :: rest =>
      if (fst sym =? 0) && (value =? 0) then inl (snd sym)
      else if negb (fst sym =? 0) && (Z.land value (fst sym) =? fst sym)
      then bitMask_loop rest value (add_term str (snd sym)) (Z.lor bits (fst sym))
      else bitMask_loop rest value str bits
  end.

Definition bitMask (opt : ReverseOptions) (symbols : SymbolTable)
    (value : Value) (hex_digits : Z) : WString :=
  if negb (num_only opt) then
    match bitMask_loop symbols value EmptyString 0 with
    | inl name => name
    | inr (str, bits) =>
        if negb (bits =? 0) then
          if negb (Z.land value (Z.lnot bits) =? 0)
          then add_term str
                 (Format_0x_0star_lld hex_digits (Z.land value (Z.lnot bits)))
          else str
        else integer value hex_digits
    end
  else integer value hex_digits.

Definition attributes (opt : ReverseOptions) (symbols attrs : SymbolTable)
    (value : Value) (hex_digits : Z) : WString :=
  if negb (num_only opt) then
    let all_attributes := fold_left (fun a sym => Z.lor a (fst sym)) attrs 0 in
    let str := symbol opt symbols (Z.land value (Z.lnot all_attributes)) hex_digits in
    if negb (Z.land value all_attributes =? 0)
    then str ++ " | " ++ bitMask opt attrs (Z.land value all_attributes) hex_digits
    else str
  else integer value hex_digits.

(** The options as the constructor leaves them, with the flag of -n. *)
Definition opt_of (n : bool) : ReverseOptions :=
  {| input := EmptyString; output := EmptyString;
     comment := "Windows Keyboards Layouts (WKL)";
     kbd_type := 0; num_only := n; hexa_dump := false; gen_resources := false |}.


(** ** Constants of the Windows headers

    The macros that [SYM] turns into table entries come from [<kbd.h>] and
    [<winuser.h>], which are not among the sources. Their values are taken
    as a parameter; [vk_symbols], whose entries are all such macros, is
    taken whole. *)

Record KbdHeader := {
  KBDBASE : Value; KBDSHIFT : Value; KBDCTRL : Value; KBDALT : Value;
  KBDKANA : Value; KBDROYA : Value; KBDLOYA : Value; KBDGRPSELTAP : Value;
  CAPLOK : Value; SGCAPS : Value; CAPLOKALTGR : Value; KANALOK : Value;
  GRPSELTAP : Value;
  WCH_NONE : Value; WCH_DEAD : Value; WCH_LGTR : Value;
  KLLF_ALTGR : Value; KLLF_SHIFTLOCK : Value; KLLF_LRM_RLM : Value;
  KBD_VERSION : Value;
  vk_symbols : SymbolTable
}.

(** A double quote and a backslash as one-character strings. *)
Definition dquote : string := String (ascii_of_nat 34) EmptyString.
Definition bslash : string := String (ascii_of_nat 92) EmptyString.

(** WCHAR representation when inserted in strings literals. *)
Definition wchar_literals : SymbolTable :=
  SymbolTable_of
    [ (9, bslash ++ "t"); (10, bslash ++ "n"); (13, bslash ++ "r");
      (34, bslash ++ dquote); (92, bslash ++ bslash) ].

(** Names of some usual non-ASCII WCHAR, for insertion in comments. *)
Definition wchar_descriptions_decl : list (Value * WString) :=
  [(0x0008, "BS"); (0x0009, "TAB"); (0x000a, "LF"); (0x000b, "VT");
    (0x000c, "FF"); (0x000d, "CR"); (0x001b, "ESC"); (0x007f, "DEL");
    (0x00a0, "Nbrk space"); (0x00a1, "Inv !"); (0x00a2, "Cent");
    (0x00a3, "Pound"); (0x00a4, "Currency"); (0x00a5, "Yen");
    (0x00a6, "Broken bar"); (0x00a7, "Section"); (0x00a8, "Diaeresis");
    (0x00a9, "Copyright"); (0x00aa, "Fem ord"); (0x00ab, "<<");
    (0x00ac, "Not"); (0x00ad, "Soft hyphen"); (0x00ae, "Registered");
    (0x00af, "Macron"); (0x00b0, "Degree"); (0x00b1, "+/-");
    (0x00b2, "Superscr two"); (0x00b3, "Superscr three"); (0x00b4, "Acute");
    (0x00b5, "Micro"); (0x00b6, "Pilcrow"); (0x00b7, "Middle dot");
    (0x00b8, "Cedilla"); (0x00b9, "Superscr one"); (0x00ba, "Masc ord");
    (0x00bb, ">>"); (0x00bc, "1/4"); (0x00bd, "1/2"); (0x00be, "3/4");
    (0x00bf, "Inv ?"); (0x00c0, "A grave"); (0x00c1, "A acute");
    (0x00c2, "A circumflex"); (0x00c3, "A tilde"); (0x00c4, "A diaeresis");
    (0x00c5, "A ring above"); (0x00c6, "AE"); (0x00c7, "C cedilla");
    (0x00c8, "E grave"); (0x00c9, "E acute"); (0x00ca, "E circumflex");
    (0x00cb, "E diaeresis"); (0x00cc, "I grave"); (0x00cd, "I acute");
    (0x00ce, "I circumflex"); (0x00cf, "I diaeresis"); (0x00d0, "ETH");
    (0x00d1, "N tilde"); (0x00d2, "O grave"); (0x00d3, "O acute");
    (0x00d4, "O circumflex"); (0x00d5, "O tilde"); (0x00d6, "O diaeresis");
    (0x00d7, "Multiplication"); (0x00d8, "O stroke"); (0x00d9, "U grave");
    (0x00da, "U acute"); (0x00db, "U circumflex"); (0x00dc, "U diaeresis");
    (0x00dd, "Y acute"); (0x00de, "THORN"); (0x00df, "sharp S");
    (0x00e0, "a grave"); (0x00e1, "a acute"); (0x00e2, "a circumflex");
    (0x00e3, "a tilde"); (0x00e4, "a diaeresis"); (0x00e5, "a ring above");
    (0x00e6, "ae"); (0x00e7, "c cedilla"); (0x00e8, "e grave");
    (0x00e9, "e acute"); (0x00ea, "e circumflex"); (0x00eb, "e diaeresis");
    (0x00ec, "i grave"); (0x00ed, "i acute"); (0x00ee, "i circumflex");
    (0x00ef, "i diaeresis"); (0x00f0, "eth"); (0x00f1, "n tilde");
    (0x00f2, "o grave"); (0x00f3, "o acute"); (0x00f4, "o circumflex");
    (0x00f5, "o tilde"); (0x00f6, "o diaeresis"); (0x00f7, "Division");
    (0x00f8, "o stroke"); (0x00f9, "u grave"); (0x00fa, "u acute");
    (0x00fb, "u circumflex"); (0x00fc, "u diaeresis"); (0x00fd, "y acute");
    (0x00fe, "thorn"); (0x00ff, "y diaeresis"); (0x0100, "A macron");
    (0x0101, "a macron"); (0x0102, "A breve"); (0x0103, "a breve");
    (0x0104, "A ogonek"); (0x0105, "a ogonek"); (0x0106, "C acute");
    (0x0107, "c acute"); (0x0108, "C circumflex"); (0x0109, "c circumflex");
    (0x010a, "C dot above"); (0x010b, "c dot above"); (0x010c, "C caron");
    (0x010d, "c caron"); (0x010e, "D caron"); (0x010f, "d caron");
    (0x0110, "D stroke"); (0x0111, "d stroke"); (0x0112, "E macron");
    (0x0113, "e macron"); (0x0116, "E dot above"); (0x0117, "e dot above");
    (0x0118, "E ogonek"); (0x0119, "e ogonek"); (0x011a, "E caron");
    (0x011b, "e caron"); (0x011c, "G circumflex"); (0x011d, "g circumflex");
    (0x011e, "G breve"); (0x011f, "g breve"); (0x0120, "G dot above");
    (0x0121, "g dot above"); (0x0122, "G cedilla"); (0x0123, "g cedilla");
    (0x0124, "H circumflex"); (0x0125, "h circumflex"); (0x0126, "H stroke");
    (0x0127, "h stroke"); (0x0128, "I tilde"); (0x0129, "i tilde");
    (0x012a, "I macron"); (0x012b, "i macron"); (0x012e, "I ogonek");
    (0x012f, "i ogonek"); (0x0130, "I dot above"); (0x0131, "Dotless I");
    (0x0134, "J circumflex"); (0x0135, "j circumflex");
    (0x0136, "K cedilla"); (0x0137, "k cedilla"); (0x0138, "kra");
    (0x0139, "L acute"); (0x013a, "l acute"); (0x013b, "L cedilla");
    (0x013c, "l cedilla"); (0x013d, "L caron"); (0x013e, "l caron");
    (0x0141, "L stroke"); (0x0142, "l stroke"); (0x0143, "N acute");
    (0x0144, "n acute"); (0x0145, "N cedilla"); (0x0146, "n cedilla");
    (0x0147, "N caron"); (0x0148, "n caron"); (0x014a, "ENG");
    (0x014b, "eng"); (0x014c, "O macron"); (0x014d, "o macron");
    (0x0150, "O double acute"); (0x0151, "o double acute"); (0x0152, "OE");
    (0x0153, "oe"); (0x0154, "R acute"); (0x0155, "r acute");
    (0x0156, "R cedilla"); (0x0157, "r cedilla"); (0x0158, "R caron");
    (0x0159, "r caron"); (0x015a, "S acute"); (0x015b, "s acute");
    (0x015c, "S circumflex"); (0x015d, "s circumflex");
    (0x015e, "S cedilla"); (0x015f, "s cedilla"); (0x0160, "S caron");
    (0x0161, "s caron"); (0x0162, "T cedilla"); (0x0163, "t cedilla");
    (0x0164, "T caron"); (0x0165, "t caron"); (0x0166, "T stroke");
    (0x0167, "t stroke"); (0x0168, "U tilde"); (0x0169, "u tilde");
    (0x016a, "U macron"); (0x016b, "u macron"); (0x016c, "U breve");
    (0x016d, "u breve"); (0x016e, "U ring above"); (0x016f, "u ring above");
    (0x0170, "U double acute"); (0x0171, "u double acute");
    (0x0172, "U ogonek"); (0x0173, "u ogonek"); (0x0174, "W circumflex");
    (0x0175, "w circumflex"); (0x0176, "Y circumflex");
    (0x0177, "y circumflex"); (0x0178, "Y diaeresis"); (0x0179, "Z acute");
    (0x017a, "z acute"); (0x017b, "Z dot above"); (0x017c, "z dot above");
    (0x017d, "Z caron"); (0x017e, "z caron"); (0x0192, "f HOOK");
    (0x0218, "S comma below"); (0x0219, "s comma below");
    (0x021a, "T comma below"); (0x021b, "t comma below");
    (0x02c6, "Circumflex"); (0x02c7, "Caron"); (0x02d8, "Breve");
    (0x02d9, "Dot above"); (0x02db, "Ogonek"); (0x02dc, "Small tilde");
    (0x02dd, "Double acute") ].

Definition wchar_descriptions : SymbolTable :=
  Eval vm_compute in SymbolTable_of wchar_descriptions_decl.

Section Tables.

Variable H : KbdHeader.

Definition shift_state_symbols : SymbolTable :=
  SymbolTable_of
    [ (KBDBASE H, "KBDBASE"); (KBDSHIFT H, "KBDSHIFT"); (KBDCTRL H, "KBDCTRL");
      (KBDALT H, "KBDALT"); (KBDKANA H, "KBDKANA"); (KBDROYA H, "KBDROYA");
      (KBDLOYA H, "KBDLOYA"); (KBDGRPSELTAP H, "KBDGRPSELTAP") ].

Definition vk_attr_symbols : SymbolTable :=
  SymbolTable_of
    [ (CAPLOK H, "CAPLOK"); (SGCAPS H, "SGCAPS");
      (CAPLOKALTGR H, "CAPLOKALTGR"); (KANALOK H, "KANALOK");
      (GRPSELTAP H, "GRPSELTAP") ].

(** Complete symbol for a WCHAR (a character literal). *)
Definition wchar_symbols : SymbolTable :=
  SymbolTable_of
    [ (9, "L'" ++ bslash ++ "t'"); (10, "L'" ++ bslash ++ "n'");
      (13, "L'" ++ bslash ++ "r'"); (39, "L'" ++ bslash ++ "''");
      (92, "L'" ++ bslash ++ bslash ++ "'");
      (WCH_NONE H, "WCH_NONE"); (WCH_DEAD H, "WCH_DEAD");
      (WCH_LGTR H, "WCH_LGTR") ].

Variable opt : ReverseOptions.

Definition LOWORD (l : Z) : Z := Z.land l 65535.
Definition HIWORD (l : Z) : Z := Z.land (Z.shiftr l 16) 65535.

Definition localeFlags (flags : Z) : WString :=
  if num_only opt then Format_0x_08X flags
  else
    let lostr :=
      bitMask opt
        (SymbolTable_of
           [ (KLLF_ALTGR H, "KLLF_ALTGR"); (KLLF_SHIFTLOCK H, "KLLF_SHIFTLOCK");
             (KLLF_LRM_RLM H, "KLLF_LRM_RLM") ])
        (LOWORD flags) 4 in
    let histr :=
      symbol opt (SymbolTable_of [ (KBD_VERSION H, "KBD_VERSION") ])
        (HIWORD flags) 4 in
    "MAKELONG(" ++ lostr ++ ", " ++ histr ++ ")".

(** A pointer is null when it is [0]. *)
Definition pointer (value : Z) (name : WString) : WString :=
  if value =? 0 then "NULL" else name.

(** The one-character string of a character code. *)
Definition char_string (value : Z) : string :=
  String (ascii_of_N (Z.to_N value)) EmptyString.


(** Format a WCHAR. The list [descs] is the reference parameter of the C++
    function: the result carries it with the description pushed back, if
    one exists. *)
Definition wchar (value : Z) (descs : WStringList) : WString * WStringList :=
  match (if negb (num_only opt) then map_find value wchar_symbols else None) with
  | Some sym => (sym, descs)
  | None =>
      if (value =? 39) || (value =? 92) then
        ("L'" ++ bslash ++ char_string value ++ "'", descs)
      else if (32 <=? value) && (value <? 127) then
        ("L'" ++ char_string value ++ "'", descs)
      else
        let descs' :=
          match (if negb (num_only opt)
                 then map_find value wchar_descriptions else None) with
          | Some dsc => (descs ++ [dsc])%list
          | None => descs
          end in
        (Format_0x_04X value, descs')
  end.

(** The loop of [wstring] over the characters that [value] points to; it
    stops at the first zero. *)
Fixpoint wstring_loop (chars : list Z) (str : WString) : WString :=
  match chars with
  | [] => str
  | c :: rest =>
      if c =? 0 then str
      else
        match map_find c wchar_literals with
        | Some lit => wstring_loop rest (str ++ lit)
        | None =>
            if (32 <=? c) && (c <? 127)
            then wstring_loop rest (str ++ char_string c)
            else wstring_loop rest (str ++ Format_bsx_04x c)
        end
  end.

(** Format a string of WCHAR: [None] is the null pointer, [Some chars] a
    pointer to the characters [chars], the terminating zero left out. *)
Definition wstring (value : option (list Z)) : WString :=
  match value with
  | None => "NULL"
  | Some chars => wstring_loop chars ("L" ++ dquote) ++ dquote
  end.

End Tables.

(** The values that the macros have in the Windows SDK, to run the
    formatters on examples; [vk_symbols] is cut down to the three modifier
    keys. *)
Definition sdk : KbdHeader :=
  {| KBDBASE := 0; KBDSHIFT := 1; KBDCTRL := 2; KBDALT := 4;
     KBDKANA := 8; KBDROYA := 16; KBDLOYA := 32; KBDGRPSELTAP := 128;
     CAPLOK := 1; SGCAPS := 2; CAPLOKALTGR := 4; KANALOK := 8;
     GRPSELTAP := 128;
     WCH_NONE := 61440; WCH_DEAD := 61441; WCH_LGTR := 61442;
     KLLF_ALTGR := 1; KLLF_SHIFTLOCK := 2; KLLF_LRM_RLM := 4;
     KBD_VERSION := 1;
     vk_symbols :=
       SymbolTable_of
         [ (16, "VK_SHIFT"); (17, "VK_CONTROL"); (18, "VK_MENU") ] |}.

(** ** Memory and data structures *)

(** The value of a pointer after arithmetic: it wraps at [2^64]. *)
Definition uintptr (a : Z) : Z := a mod 2 ^ 64.

(** The memory image of the loaded library: the byte at each address. *)
Definition Memory := Z -> Z.

Definition read8 (mem : Memory) (a : Z) : Z := mem a.

(** A 16-bit little-endian word ([WCHAR], [USHORT]). *)
Definition read16 (mem : Memory) (a : Z) : Z :=
  read8 mem a + 256 * read8 mem (uintptr (a + 1)).

(** Modelled from the spec: [IsZero(begin, end)] of [winutils.h] is not
    among the sources. The spec reads it as: every byte strictly between
    the two extents is zero. It tests the bytes of [begin, end), and holds
    of an empty range. *)
Definition IsZero (mem : Memory) (b e : Z) : bool :=
  forallb (fun i => mem (b + Z.of_nat i) =? 0) (seq 0 (Z.to_nat (e - b))).

(** Modelled from the spec: [Join] of [strutils.h] is not among the
    sources; it is taken to put the separator between the elements. *)
Definition Join (l : list WString) (sep : WString) : WString :=
  String.concat sep l.

(** Description of one data structure. *)
Record DataStructure := {
  name : WString;
  address : Z;
  size : Z
}.

Module DS.

(** [DataStructure(n, a, end)]. *)
Definition range (n : WString) (a e : Z) : DataStructure :=
  {| name := n; address := a; size := uintptr (e - a) |}.

(** Address after last byte. *)
Definition end_ (d : DataStructure) : Z := uintptr (address d + size d).

Definition setEnd (d : DataStructure) (e : Z) : DataStructure :=
  {| name := name d; address := address d; size := uintptr (e - address d) |}.

(** Sort operator. *)
Definition lt (d s : DataStructure) : bool := address d <? address s.

End DS.

(** [std::list::sort]: a stable sort by [operator<]. Stability fixes the
    result, which is obtained here by inserting each element before the
    sorted rest of the list, in front of the elements it is not greater
    than. *)
Fixpoint sort_insert (d : DataStructure) (l : list DataStructure)
    : list DataStructure :=
  match l with
  | [] => [d]
  | x :: r => if DS.lt x d then x :: sort_insert d r else d :: l
  end.

Fixpoint list_sort (l : list DataStructure) : list DataStructure :=
  match l with
  | [] => []
  | d :: r => sort_insert d (list_sort r)
  end.

(** ** Extent reconciliation *)

Section Reconciliation.

Variable mem : Memory.

(** [previous] once merged with [current]. *)
Definition merge (previous current : DataStructure) : DataStructure :=
  {| name := name previous;
     address := address previous;
     size := uintptr (DS.end_ current - address previous) |}.

Definition merge_test (previous current : DataStructure) : bool :=
  let inter_zero := IsZero mem (DS.end_ previous) (address current) in
  (name previous =? name current)%string
  && ((DS.end_ previous =? address current) || inter_zero).

Definition inter (previous current : DataStructure) : DataStructure :=
  let inter_zero := IsZero mem (DS.end_ previous) (address current) in
  DS.range (if inter_zero then "Padding" else "Unreferenced")
    (DS.end_ previous) (address current).

(** The while loop of [sortDataStructures]. The list is cut at the two
    iterators: the elements before [previous] are final and are put in
    front of the result, [rest] starts at [current]. One unit of [fuel] is
    one test of the loop condition; [None] is a loop that still runs when
    the fuel is spent. *)
Fixpoint scan (fuel : nat) (previous : DataStructure)
    (rest : list DataStructure) : option (list DataStructure) :=
  match fuel with
  | O => None
  | S fuel =>
      match rest with
      | [] => Some [previous]
      | current :: after =>
          if merge_test previous current then
            scan fuel (merge previous current) after
          else if DS.end_ previous <? address current then
            option_map (cons previous)
              (scan fuel (inter previous current) (current :: after))
          else
            option_map (cons previous) (scan fuel current after)
      end
  end.

(** [sortDataStructures] takes [_alldata] to its new value. Every element
    is the current one of at most two iterations, which bounds the fuel.
    On an empty list [begin()] is [end()] and the loop is not entered;
    [generate] never leaves the list empty. *)
Definition sortDataStructures (alldata : list DataStructure)
    : option (list DataStructure) :=
  match list_sort alldata with
  | [] => Some []
  | previous :: rest => scan (2 * List.length rest + 1) previous rest
  end.

End Reconciliation.

(** ** Walks of sentinel-terminated arrays *)

(** Modelled from the spec: [Grid] of [grid.h] is not among the sources.
    The spec has records rendered as column-aligned declarations: a grid is
    taken to be the list of its lines, a line the list of its columns;
    [addLine] adds a line and [addColumn] adds a column to the last line.
    The alignment is done when the grid is printed, which is left out. *)
Definition addLine (grid : Grid) (line : Line) : Grid := (grid ++ [line])%list.

Fixpoint addColumn (grid : Grid) (s : WString) : Grid :=
  match grid with
  | [] => [[s]]
  | [line] => [(line ++ [s])%list]
  | line :: rest => line :: addColumn rest s
  end.

Section Walks.

Variable H : KbdHeader.
Variable opt : ReverseOptions.
Variable mem : Memory.

(** The for loop of [genVkToBits] over [VK_TO_BIT] records, two bytes each:
    [Vk] then [ModBits]. The source loop has no counter: [fuel] counts the
    tests of [vtb->Vk != 0], and [None] is a loop that still runs when the
    fuel is spent. The result is the grid and the final [vtb]. *)
Fixpoint genVkToBits_loop (fuel : nat) (vtb : Z) (grid : Grid)
    : option (Grid * Z) :=
  match fuel with
  | O => None
  | S fuel =>
      if negb (read8 mem vtb =? 0) then
        genVkToBits_loop fuel (uintptr (vtb + 2))
          (addLine grid
             [ "{" ++ symbol opt (vk_symbols H) (read8 mem vtb) 2 ++ ",";
               bitMask opt (shift_state_symbols H)
                 (read8 mem (uintptr (vtb + 1))) 4 ++ "}," ])
      else Some (grid, vtb)
  end.

(** [genVkToBits], up to the printing of the grid: the grid with its last
    line and the data structure pushed on [_alldata]. *)
Definition genVkToBits (fuel : nat) (vtb : Z) (name : WString)
    : option (Grid * DataStructure) :=
  let ds := {| name := name; address := vtb; size := 0 |} in
  match genVkToBits_loop fuel vtb [] with
  | None => None
  | Some (grid, vtb) =>
      let grid := addLine grid ["{0,"; "0}"] in
      let vtb := uintptr (vtb + 2) in
      Some (grid, DS.setEnd ds vtb)
  end.

(** The columns of one [VK_TO_WCHARS] record: the [n] remaining rounds of
    the for loop over [wch[i]], which starts at [i = 0] and ends before
    [count]. The characters are 16-bit words from the offset 2 on. *)
Fixpoint wch_columns (n : nat) (i count : Z) (vtwc : Z) (grid : Grid)
    (comments : WStringList) : Grid * WStringList :=
  match n with
  | O => (grid, comments)
  | S n =>
      let (str, comments) :=
        wchar H opt (read16 mem (uintptr (vtwc + 2 + 2 * i))) comments in
      let str := if i =? 0 then "{" ++ str else str in
      let str := str ++ (if i =? count - 1 then "}}," else ",") in
      wch_columns n (i + 1) count vtwc (addColumn grid str) comments
  end.

(** The while loop of [genSubVkToWchar] over records of [size] bytes:
    [VirtualKey], [Attributes], then [count] characters. [fuel] counts the
    tests of [vtwc->VirtualKey != 0]. *)
Fixpoint genSubVkToWchar_loop (fuel : nat) (vtwc : Z) (count size : Z)
    (grid : Grid) : option (Grid * Z) :=
  match fuel with
  | O => None
  | S fuel =>
      if negb (read8 mem vtwc =? 0) then
        let grid :=
          addLine grid
            [ "{" ++ symbol opt (vk_symbols H) (read8 mem vtwc) 2 ++ ",";
              bitMask opt (vk_attr_symbols H)
                (read8 mem (uintptr (vtwc + 1))) 2 ++ "," ] in
        let (grid, comments) :=
          wch_columns (Z.to_nat count) 0 count vtwc grid [] in
        let grid :=
          match comments with
          | [] => grid
          | _ => addColumn grid ("// " ++ Join comments ", ")
          end in
        genSubVkToWchar_loop fuel (uintptr (vtwc + size)) count size grid
      else Some (grid, vtwc)
  end.

(** [genSubVkToWchar] from its while loop on, up to the printing of the
    grid: the header lines of the grid are left out. *)
Definition genSubVkToWchar (fuel : nat) (vtwc : Z) (count size : Z)
    (name : WString) : option (Grid * DataStructure) :=
  let ds := {| name := name; address := vtwc; size := 0 |} in
  match genSubVkToWchar_loop fuel vtwc count size [] with
  | None => None
  | Some (grid, vtwc) =>
      let line := ("{0," :: repeat "0," (Z.to_nat count) ++ ["0}"])%list in
      let grid := addLine grid line in
      let vtwc := uintptr (vtwc + size) in
      Some (grid, DS.setEnd ds vtwc)
  end.

End Walks.

(** ** The driver *)

(** The root header [KBDTABLES]; pointers are addresses. *)
Record KBDTABLES := {
  pCharModifiers : Z;
  pVkToWcharTable : Z;
  pDeadKey : Z;
  pKeyNames : Z;
  pKeyNamesExt : Z;
  pKeyNamesDead : Z;
  pusVSCtoVK : Z;
  bMaxVSCtoVK : Z;
  pVSCtoVK_E0 : Z;
  pVSCtoVK_E1 : Z;
  fLocaleFlags : Z;
  nLgMax : Z;
  cbLgEntry : Z;
  pLigature : Z;
  dwType : Z;
  dwSubType : Z
}.

Section Generate.

Variable H : KbdHeader.

(** [FileName] of [winutils.h] is not among the sources. *)
Variable FileName : WString -> WString.

Variable opt : ReverseOptions.

Definition dashed : WString := Fmt.repeat_char "-" 75.

(** The keyboard type that [generate] guesses. *)
Definition generate_kbd_type (tables : KBDTABLES) : Z :=
  if kbd_type opt >? 0 then kbd_type opt
  else if (dwType tables >? 0) && (dwType tables <? 48) then dwType tables
  else 4.

(** The lines that [generate] prints first. *)
Definition generate_header (tables : KBDTABLES) : list WString :=
  [ "//" ++ dashed;
    "// " ++ comment opt;
    "// Automatically generated from " ++ FileName (input opt);
    "//" ++ dashed;
    EmptyString;
    "#define KBD_TYPE " ++ Fmt.d (generate_kbd_type tables);
    EmptyString;
    "#include <windows.h>";
    "#include <kbd.h>";
    "#include <dontuse.h>";
    EmptyString ].

Definition char_modifiers_name : WString := "char_modifiers".
Definition vk_to_wchar_name : WString := "vk_to_wchar".
Definition dead_keys_name : WString := "dead_keys".
Definition key_names_name : WString := "key_names".
Definition key_names_ext_name : WString := "key_names_ext".
Definition key_names_dead_name : WString := "key_names_dead".
Definition scancode_to_vk_name : WString := "scancode_to_vk".
Definition scancode_to_vk_e0_name : WString := "scancode_to_vk_e0".
Definition scancode_to_vk_e1_name : WString := "scancode_to_vk_e1".
Definition ligatures_name : WString := "ligatures".
Definition kbd_table_name : WString := "kbd_tables".

(** The main table, as [generate] prints it after the sub-structures: one
    string per line. *)
Definition generate_kbd_tables (tables : KBDTABLES) : list WString :=
  [ "//" ++ dashed;
    "// Main keyboard layout structure, point to all tables";
    "//" ++ dashed;
    EmptyString;
    "static KBDTABLES " ++ kbd_table_name ++ " = {";
    "    .pCharModifiers  = "
      ++ pointer (pCharModifiers tables) ("&" ++ char_modifiers_name) ++ ",";
    "    .pVkToWcharTable = "
      ++ pointer (pVkToWcharTable tables) vk_to_wchar_name ++ ",";
    "    .pDeadKey        = " ++ pointer (pDeadKey tables) dead_keys_name ++ ",";
    "    .pKeyNames       = " ++ pointer (pKeyNames tables) key_names_name ++ ",";
    "    .pKeyNamesExt    = "
      ++ pointer (pKeyNamesExt tables) key_names_ext_name ++ ",";
    "    .pKeyNamesDead   = "
      ++ pointer (pKeyNamesDead tables) key_names_dead_name ++ ",";
    "    .pusVSCtoVK      = "
      ++ pointer (pusVSCtoVK tables) scancode_to_vk_name ++ ",";
    "    .bMaxVSCtoVK     = "
      ++ (if pusVSCtoVK tables =? 0 then "0,"
          else "ARRAYSIZE(" ++ scancode_to_vk_name ++ "),");
    "    .pVSCtoVK_E0     = "
      ++ pointer (pVSCtoVK_E0 tables) scancode_to_vk_e0_name ++ ",";
    "    .pVSCtoVK_E1     = "
      ++ pointer (pVSCtoVK_E1 tables) scancode_to_vk_e1_name ++ ",";
    "    .fLocaleFlags    = " ++ localeFlags H opt (fLocaleFlags tables) ++ ",";
    "    .nLgMax          = " ++ Fmt.d (nLgMax tables) ++ ",";
    "    .cbLgEntry       = "
      ++ (if pLigature tables =? 0 then "0,"
          else "sizeof(" ++ ligatures_name ++ "[0]),");
    "    .pLigature       = "
      ++ pointer (pLigature tables) ("(PLIGATURE1)" ++ ligatures_name) ++ ",";
    "    .dwType          = " ++ Fmt.d (dwType tables) ++ ",";
    "    .dwSubType       = " ++ Fmt.d (dwSubType tables) ++ ",";
    "};" ].

End Generate.

(** ** Vocabulary of the properties *)

(** The keys of a table or of a declaration, in its order. *)
Definition keys (t : SymbolTable) : list Z := map fst t.

(** The entries of a table whose flag is set in [value]: the nonzero keys
    that [bitMask] finds, in the order of the table. *)
Definition flags_matched (symbols : SymbolTable) (value : Value)
    : list (Value * WString) :=
  filter (fun sym => negb (fst sym =? 0) && (Z.land value (fst sym) =? fst sym))
    symbols.

(** The terms that [bitMask] joins after a match: the names, then the
    remaining bits if there are some. *)
Definition residual (symbols : SymbolTable) (value : Value) : Value :=
  Z.land value
    (Z.lnot (fold_left Z.lor (map fst (flags_matched symbols value)) 0)).

Definition bitMask_terms (symbols : SymbolTable) (value : Value)
    (hex_digits : Z) : list WString :=
  (map snd (flags_matched symbols value)
   ++ (if residual symbols value =? 0 then []
       else [Format_0x_0star_lld hex_digits (residual symbols value)]))%list.

(** The terms joined the way [bitMask] joins them. *)
Definition join_terms (terms : list WString) : WString :=
  fold_left add_term terms EmptyString.

Definition is_digit (c : ascii) : bool :=
  (48 <=? nat_of_ascii c)%nat && (nat_of_ascii c <=? 57)%nat.

(** A string that starts like a number: with a digit or a minus sign. *)
Definition numeric_start (s : string) : bool :=
  match s with
  | String c _ => is_digit c || (c =? "-")%char
  | EmptyString => false
  end.

(** A table whose names start like identifiers: none is empty, none
    starts like a number. *)
Definition symbolic_names (symbols : SymbolTable) : bool :=
  forallb (fun sym => negb (empty (snd sym)) && negb (numeric_start (snd sym)))
    symbols.

(** The reading of [bitMask] that tests the entries in the order of their
    declaration: the loop of [bitMask] over the declared list itself. *)
Definition bitMask_declared_order (opt : ReverseOptions)
    (decl : list (Value * WString)) (value : Value) (hex_digits : Z)
    : WString :=
  bitMask opt decl value hex_digits.

(** A loop that is still running, whatever the number of steps it is
    given. *)
Definition never_stops {A : Type} (run : nat -> option A) : Prop :=
  forall fuel, run fuel = None.

(** The address of the record [i] of an array of records of [size] bytes
    that starts at [p]. *)
Definition record_at (p size : Z) (i : nat) : Z :=
  Nat.iter i (fun a => uintptr (a + size)) p.

(** An extent that lies in the address space. *)
Definition in_range (d : DataStructure) : Prop :=
  0 <= address d /\ 0 <= size d /\ address d + size d < 2 ^ 64.

(** The names of the extents that [sortDataStructures] makes up. *)
Definition synthetic (n : WString) : bool :=
  ((n =? "Padding") || (n =? "Unreferenced"))%string.

(** The header [tables] with other values in its two size fields. *)
Definition with_sizes (tables : KBDTABLES) (vsc_max lg_entry : Z) : KBDTABLES :=
  {| pCharModifiers := pCharModifiers tables;
     pVkToWcharTable := pVkToWcharTable tables;
     pDeadKey := pDeadKey tables;
     pKeyNames := pKeyNames tables;
     pKeyNamesExt := pKeyNamesExt tables;
     pKeyNamesDead := pKeyNamesDead tables;
     pusVSCtoVK := pusVSCtoVK tables;
     bMaxVSCtoVK := vsc_max;
     pVSCtoVK_E0 := pVSCtoVK_E0 tables;
     pVSCtoVK_E1 := pVSCtoVK_E1 tables;
     fLocaleFlags := fLocaleFlags tables;
     nLgMax := nLgMax tables;
     cbLgEntry := lg_entry;
     pLigature := pLigature tables;
     dwType := dwType tables;
     dwSubType := dwSubType tables |}.

(** The line [n] of a text. *)
Definition line (n : nat) (text : list WString) : WString :=
  nth n text EmptyString.

(** The header of [kbdus.dll], with the pointers replaced by marks. *)
Definition kbdus_tables : KBDTABLES :=
  {| pCharModifiers := 1; pVkToWcharTable := 1; pDeadKey := 0;
     pKeyNames := 1; pKeyNamesExt := 1; pKeyNamesDead := 0;
     pusVSCtoVK := 1; bMaxVSCtoVK := 127;
     pVSCtoVK_E0 := 1; pVSCtoVK_E1 := 1;
     fLocaleFlags := 65536; nLgMax := 0; cbLgEntry := 0; pLigature := 0;
     dwType := 0; dwSubType := 0 |}.

Definition with_type (tables : KBDTABLES) (type subtype : Z) : KBDTABLES :=
  {| pCharModifiers := pCharModifiers tables;
     pVkToWcharTable := pVkToWcharTable tables;
     pDeadKey := pDeadKey tables;
     pKeyNames := pKeyNames tables;
     pKeyNamesExt := pKeyNamesExt tables;
     pKeyNamesDead := pKeyNamesDead tables;
     pusVSCtoVK := pusVSCtoVK tables;
     bMaxVSCtoVK := bMaxVSCtoVK tables;
     pVSCtoVK_E0 := pVSCtoVK_E0 tables;
     pVSCtoVK_E1 := pVSCtoVK_E1 tables;
     fLocaleFlags := fLocaleFlags tables;
     nLgMax := nLgMax tables;
     cbLgEntry := cbLgEntry tables;
     pLigature := pLigature tables;
     dwType := type;
     dwSubType := subtype |}.

Definition file_name_id (path : WString) : WString := path.

(** The first record with a zero key is the record [k] of the array. *)
Definition sentinel_first (mem : Memory) (p size : Z) (k : nat) : Prop :=
  (forall i, (i < k)%nat -> read8 mem (record_at p size i) <> 0)
  /\ read8 mem (record_at p size k) = 0.

(** No record of the array has a zero key. *)
Definition no_sentinel (mem : Memory) (p size : Z) : Prop :=
  forall i, read8 mem (record_at p size i) <> 0.

(** A memory image filled with the byte [b]. *)
Definition filled (b : Z) : Memory := fun _ => b.

(** A memory image that holds [bytes] from the address 0 on, and zeros
    elsewhere. *)
Definition image (bytes : list Z) : Memory :=
  fun a => if a <? 0 then 0 else nth (Z.to_nat a) bytes 0.

(** The extents are in ascending order of their addresses. *)
Fixpoint ascending (l : list DataStructure) : Prop :=
  match l with
  | p :: (c :: _) as r => address p <= address c /\ ascending r
  | _ => True
  end.

(** A list on which the loop of [sortDataStructures] has nothing to do:
    no pair of neighbours passes the merge test or leaves a gap. *)
Fixpoint settled (mem : Memory) (l : list DataStructure) : Prop :=
  match l with
  | p :: (c :: _) as r =>
      merge_test mem p c = false
      /\ (DS.end_ p <? address c) = false
      /\ settled mem r
  | _ => True
  end.


(** Extents for the examples: [extent n a s] has the name [n], starts at
    [a] and has [s] bytes. *)
Definition extent (n : WString) (a s : Z) : DataStructure :=
  {| name := n; address := a; size := s |}.


(** The mask of all possible attributes that [attributes] computes. *)
Definition all_attributes (attrs : SymbolTable) : Value :=
  fold_left (fun a sym => Z.lor a (fst sym)) attrs 0.

(** A key that is one bit. *)
Definition single_bit (k : Z) : Prop := exists n, 0 <= n /\ k = 2 ^ n.

(** The declaration of [wchar_symbols]. *)
Definition wchar_symbols_decl (H : KbdHeader) : list (Value * WString) :=
  [ (9, "L'" ++ bslash ++ "t'"); (10, "L'" ++ bslash ++ "n'");
    (13, "L'" ++ bslash ++ "r'"); (39, "L'" ++ bslash ++ "''");
    (92, "L'" ++ bslash ++ bslash ++ "'");
    (WCH_NONE H, "WCH_NONE"); (WCH_DEAD H, "WCH_DEAD");
    (WCH_LGTR H, "WCH_LGTR") ].

(** A printable ASCII character, and a string of such characters. *)
Definition printable (c : ascii) : bool :=
  ((32 <=? N_of_ascii c) && (N_of_ascii c <? 127))%N.

Fixpoint all_printable (s : string) : bool :=
  match s with
  | EmptyString => true
  | String c s => printable c && all_printable s
  end.

(** Every extent starts inside its predecessor or at its end, and not
    before it. *)
Fixpoint chained (l : list DataStructure) : Prop :=
  match l with
  | p :: (c :: _) as r => address p <= address c <= DS.end_ p /\ chained r
  | _ => True
  end.

(** ** The hexadecimal dump *)

Section HexaDump.

Variable mem : Memory.

(** The size of a memory page, from [GetSystemInfo]. *)
Variable page_size : Z.

(** The start of the page of the first address and the end of the page of
    the last address, as [genHexaDump] computes them. *)
Definition first_page_of (first_address : Z) : Z :=
  uintptr (first_address - first_address mod page_size).

Definition last_page_of (last_address : Z) : Z :=
  uintptr (last_address + (page_size - last_address mod page_size) mod page_size).

(** [genHexaDump]: the bounds of the dump and the data structures that are
    dumped, in their order; the printing of their bytes is left out.
    [front()] and [back()] of an empty list are not modelled. *)
Definition genHexaDump (alldata : list DataStructure)
    : option (Z * Z * list DataStructure) :=
  match sortDataStructures mem alldata with
  | None => None
  | Some [] => None
  | Some (front :: rest) =>
      let first_address := uintptr (address front) in
      let last_address := uintptr (DS.end_ (last rest front)) in
      let first_page := first_page_of first_address in
      let last_page := last_page_of last_address in
      let before :=
        if first_page <? first_address
        then [ {| name := "Start of memory page before first data structure";
                  address := first_page;
                  size := uintptr (first_address - first_page) |} ]
        else [] in
      let after :=
        if last_address <? last_page
        then [ {| name := "End of memory page after last data structure";
                  address := last_address;
                  size := uintptr (last_page - last_address) |} ]
        else [] in
      Some (first_page, last_page, (before ++ (front :: rest) ++ after)%list)
  end.

End HexaDump.

(** Two memory images hold the same bytes from [lo] to [hi], [hi] left
    out. *)
Definition agree (mem mem' : Memory) (lo hi : Z) : Prop :=
  forall a, lo <= a < hi -> mem' a = mem a.

(** ** The command line *)

(** Modelled from the spec: the class [Options] of [options.h] is not among
    the sources. The spec has the tool exit with a diagnostic line on a bad
    command line: [args] is taken to be the arguments after the program
    name, and [usage] and [fatal] to end the program, [fatal] with its
    message. *)
Inductive Parse :=
| Parsed (opt : ReverseOptions)
| Usage
| Fatal (message : WString).

Definition set_input (opt : ReverseOptions) (v : WString) : ReverseOptions :=
  {| input := v; output := output opt; comment := comment opt;
     kbd_type := kbd_type opt; num_only := num_only opt;
     hexa_dump := hexa_dump opt; gen_resources := gen_resources opt |}.

Definition set_output (opt : ReverseOptions) (v : WString) : ReverseOptions :=
  {| input := input opt; output := v; comment := comment opt;
     kbd_type := kbd_type opt; num_only := num_only opt;
     hexa_dump := hexa_dump opt; gen_resources := gen_resources opt |}.

Definition set_comment (opt : ReverseOptions) (v : WString) : ReverseOptions :=
  {| input := input opt; output := output opt; comment := v;
     kbd_type := kbd_type opt; num_only := num_only opt;
     hexa_dump := hexa_dump opt; gen_resources := gen_resources opt |}.

Definition set_kbd_type (opt : ReverseOptions) (v : Z) : ReverseOptions :=
  {| input := input opt; output := output opt; comment := comment opt;
     kbd_type := v; num_only := num_only opt;
     hexa_dump := hexa_dump opt; gen_resources := gen_resources opt |}.

Definition set_num_only (opt : ReverseOptions) : ReverseOptions :=
  {| input := input opt; output := output opt; comment := comment opt;
     kbd_type := kbd_type opt; num_only := true;
     hexa_dump := hexa_dump opt; gen_resources := gen_resources opt |}.

Definition set_hexa_dump (opt : ReverseOptions) : ReverseOptions :=
  {| input := input opt; output := output opt; comment := comment opt;
     kbd_type := kbd_type opt; num_only := num_only opt;
     hexa_dump := true; gen_resources := gen_resources opt |}.

Definition set_gen_resources (opt : ReverseOptions) : ReverseOptions :=
  {| input := input opt; output := output opt; comment := comment opt;
     kbd_type := kbd_type opt; num_only := num_only opt;
     hexa_dump := hexa_dump opt; gen_resources := true |}.

(** [args[i].front() != '-'], on a string that is not empty. *)
Definition front_is_dash (s : WString) : bool :=
  match s with
  | String c _ => (c =? "-")%char
  | EmptyString => false
  end.

Section CommandLine.

(** [ToInt] of [strutils.h] is not among the sources. *)
Variable ToInt : WString -> Z.

(** The loop of the constructor of [ReverseOptions] over the arguments
    that are left, and the test that follows it. An option that takes a
    value and is the last argument falls through to the last two
    branches. *)
Fixpoint parse_args (args : list WString) (opt : ReverseOptions) : Parse :=
  match args with
  | [] =>
      if empty (input opt)
      then Fatal "no keyboard layout specified, try --help"
      else Parsed opt
  | a :: rest =>
      if ((a =? "--help") || (a =? "-h"))%string then Usage
      else if (a =? "-d")%string then parse_args rest (set_hexa_dump opt)
      else if (a =? "-n")%string then parse_args rest (set_num_only opt)
      else if (a =? "-r")%string then parse_args rest (set_gen_resources opt)
      else
        match (a =? "-o")%string, rest with
        | true, v :: rest' => parse_args rest' (set_output opt v)
        | _, _ =>
        match (a =? "-c")%string, rest with
        | true, v :: rest' => parse_args rest' (set_comment opt v)
        | _, _ =>
        match (a =? "-t")%string, rest with
        | true, v :: rest' => parse_args rest' (set_kbd_type opt (ToInt v))
        | _, _ =>
            if negb (empty a) && negb (front_is_dash a) && empty (input opt)
            then parse_args rest (set_input opt a)
            else Fatal ("invalid option '" ++ a ++ "', try --help")
        end end end
  end.

(** The constructor of [ReverseOptions]. *)
Definition ReverseOptions_of (args : list WString) : Parse :=
  parse_args args (opt_of false).

End CommandLine.

(** ** The keyboard layout to open *)

(** [s.find_first_of(chars) != npos]. *)
Fixpoint has_any_of (chars : list ascii) (s : WString) : bool :=
  match s with
  | EmptyString => false
  | String c s =>
      existsb (fun x => (x =? c)%char) chars || has_any_of chars s
  end.

(** The characters that make a file name of an input: colon, backslash,
    slash and dot. *)
Definition path_chars : list ascii :=
  [ ":"%char; ascii_of_nat 92; "/"%char; "."%char ].

(** The file that [wmain] opens for the input: an input without separator
    is the name of a keyboard, looked up in the system directory;
    [system_root] is what [GetEnv] gives for SYSTEMROOT. *)
Definition resolve_input (system_root : WString) (input : WString) : WString :=
  if negb (has_any_of path_chars input)
  then system_root ++ bslash ++ "System32" ++ bslash ++ "kbd" ++ input ++ ".dll"
  else input.

(** ** The description of a keyboard in the registry *)

(** [WString::npos]. *)
Definition npos : Z := 2 ^ 64 - 1.

(** The loop of [GenerateResourceFile] that keeps the entry with the
    shortest description that is not empty: [i] is the index of the head of
    [texts], the result is [index] after the loop. *)
Fixpoint shortest_loop (texts : list WString) (i index : nat) (desc_length : Z)
    : nat :=
  match texts with
  | [] => index
  | text :: rest =>
      let len := Z.of_nat (String.length text) in
      if (len >? 0) && (len <? desc_length)
      then shortest_loop rest (S i) i len
      else shortest_loop rest (S i) index desc_length
  end.

Definition shortest_index (texts : list WString) : nat :=
  shortest_loop texts 0 0 npos.

(** * Properties *)

Example bitMask_A_B :
  bitMask (opt_of false) (SymbolTable_of [(1, "A"); (4, "B")]) 5 0 = "A | B".
Proof. reflexivity. Qed.

Example bitMask_NONE :
  bitMask (opt_of false) (SymbolTable_of [(0, "NONE"); (1, "A")]) 0 0 = "NONE".
Proof. reflexivity. Qed.

Example bitMask_A_8 :
  bitMask (opt_of false) (SymbolTable_of [(1, "A"); (4, "B")]) 9 0 = "A | 0x8".
Proof. reflexivity. Qed.

Example integer_255_4 : integer 255 4 = "0x00FF".
Proof. reflexivity. Qed.

Example integer_neg : integer (-12) 0 = "-12".
Proof. reflexivity. Qed.

Example wchar_A : wchar sdk (opt_of false) 65 [] = ("L'A'", []).
Proof. reflexivity. Qed.

Example wchar_tab : wchar sdk (opt_of false) 9 [] = ("L'\t'", []).
Proof. reflexivity. Qed.

Example wchar_hiragana : wchar sdk (opt_of false) 12354 [] = ("0x3042", []).
Proof. reflexivity. Qed.

Example wchar_eacute :
  wchar sdk (opt_of false) 233 [] = ("0x00E9", ["e acute"]).
Proof. reflexivity. Qed.

Example localeFlags_kbdus :
  localeFlags sdk (opt_of false) 65536 = "MAKELONG(0x0000, KBD_VERSION)".
Proof. reflexivity. Qed.

Example sortDataStructures_strings :
  sortDataStructures (filled 0)
    [extent "T" 50 1; extent "S" 20 10; extent "S" 0 10]
  = Some [extent "S" 0 30; extent "Padding" 30 20; extent "T" 50 1].
Proof. reflexivity. Qed.

Example sortDataStructures_unreferenced :
  sortDataStructures (image [0; 0; 0; 0; 0; 0; 0; 0; 0; 0; 0; 0; 0; 0; 0; 7])
    [extent "S" 0 10; extent "S" 20 10]
  = Some [extent "S" 0 10; extent "Unreferenced" 10 10; extent "S" 20 10].
Proof. reflexivity. Qed.

Example genVkToBits_modifiers :
  genVkToBits sdk (opt_of false) (image [16; 1; 17; 2; 18; 4; 0; 0]) 4 0
    "vk_to_bits"
  = Some ([ ["{VK_SHIFT,"; "KBDSHIFT},"]; ["{VK_CONTROL,"; "KBDCTRL},"];
            ["{VK_MENU,"; "KBDALT},"]; ["{0,"; "0}"] ],
          extent "vk_to_bits" 0 8).
Proof. reflexivity. Qed.

Example genSubVkToWchar_two_columns :
  genSubVkToWchar sdk (opt_of false)
    (image [65; 1; 97; 0; 65; 0; 66; 0; 233; 0; 66; 0; 0; 0; 0; 0; 0; 0])
    3 0 2 6 "vk_to_wchar2"
  = Some ([ ["{0x41,"; "CAPLOK,"; "{L'a',"; "L'A'}},"];
            ["{0x42,"; "0x00,"; "{0x00E9,"; "L'B'}},"; "// e acute"];
            ["{0,"; "0,"; "0,"; "0}"] ],
          extent "vk_to_wchar2" 0 18).
Proof. reflexivity. Qed.

Example wstring_esc :
  wstring (Some [69; 115; 99]) = "L" ++ dquote ++ "Esc" ++ dquote.
Proof. reflexivity. Qed.

(** ** The root structure *)

Section RootStructure.

Variable H : KbdHeader.
Variable opt : ReverseOptions.

(** C10. In the root structure that [generate] prints, the two size fields
    are written from the generated tables, not copied from the header:
    [.bMaxVSCtoVK] is the literal 0 when [pusVSCtoVK] is null and
    [ARRAYSIZE(scancode_to_vk)] otherwise, [.cbLgEntry] is 0 when
    [pLigature] is null and [sizeof(ligatures[0])] otherwise, and the whole
    text is the same whatever the header holds in [bMaxVSCtoVK] and
    [cbLgEntry]. *)
Theorem generate_sizes_recomputed :
  forall (tables : KBDTABLES) (vsc_max lg_entry : Z),
    line 12 (generate_kbd_tables H opt tables)
    = (if pusVSCtoVK tables =? 0
       then "    .bMaxVSCtoVK     = 0,"
       else "    .bMaxVSCtoVK     = ARRAYSIZE(scancode_to_vk),")
    /\ line 17 (generate_kbd_tables H opt tables)
       = (if pLigature tables =? 0
          then "    .cbLgEntry       = 0,"
          else "    .cbLgEntry       = sizeof(ligatures[0]),")
    /\ generate_kbd_tables H opt (with_sizes tables vsc_max lg_entry)
       = generate_kbd_tables H opt tables.
Proof.
  intros tables vsc_max lg_entry. unfold line, generate_kbd_tables. cbn [nth].
  repeat split.
  - destruct (pusVSCtoVK tables =? 0); reflexivity.
  - destruct (pLigature tables =? 0); reflexivity.
Qed.

End RootStructure.

Example root_null_scancodes :
  line 12 (generate_kbd_tables sdk (opt_of false)
             {| pCharModifiers := 1; pVkToWcharTable := 1; pDeadKey := 0;
                pKeyNames := 1; pKeyNamesExt := 1; pKeyNamesDead := 0;
                pusVSCtoVK := 0; bMaxVSCtoVK := 127;
                pVSCtoVK_E0 := 1; pVSCtoVK_E1 := 1;
                fLocaleFlags := 65536; nLgMax := 0; cbLgEntry := 6;
                pLigature := 0; dwType := 0; dwSubType := 0 |})
  = "    .bMaxVSCtoVK     = 0,".
Proof. reflexivity. Qed.

(** ** The keyboard type *)

(** At the header of kbdus.dll with [dwType] 100 and [dwSubType] 77, and
    without the option -t: [generate] guesses the type 4 and defines
    [KBD_TYPE] as 4, and prints 100 and 77 in the fields [.dwType] and
    [.dwSubType] of the root structure. *)
Lemma generate_type_fields_not_guessed :
  let tables := with_type kbdus_tables 100 77 in
  generate_kbd_type (opt_of false) tables = 4
  /\ line 5 (generate_header file_name_id (opt_of false) tables)
     = "#define KBD_TYPE 4"
  /\ line 19 (generate_kbd_tables sdk (opt_of false) tables)
     = "    .dwType          = 100,"
  /\ line 20 (generate_kbd_tables sdk (opt_of false) tables)
     = "    .dwSubType       = 77,".
Proof. repeat split. Qed.

Section KeyboardType.

Variable H : KbdHeader.
Variable FileName : WString -> WString.
Variable opt : ReverseOptions.

(** C8, amended. Without the option -t (option value not positive), the
    line [#define KBD_TYPE] reports the [dwType] of the header when
    [0 < dwType < 48], and 4 otherwise; with the option it reports the
    option value. The fields [.dwType] and [.dwSubType] of the root
    structure are printed with the values of the header, unchanged. *)
Theorem generate_type_scalar :
  forall tables : KBDTABLES,
    (kbd_type opt <= 0 -> 0 < dwType tables < 48 ->
       line 5 (generate_header FileName opt tables)
       = "#define KBD_TYPE " ++ Fmt.d (dwType tables))
    /\ (kbd_type opt <= 0 -> ~ 0 < dwType tables < 48 ->
          line 5 (generate_header FileName opt tables) = "#define KBD_TYPE 4")
    /\ (0 < kbd_type opt ->
          line 5 (generate_header FileName opt tables)
          = "#define KBD_TYPE " ++ Fmt.d (kbd_type opt))
    /\ line 19 (generate_kbd_tables H opt tables)
       = "    .dwType          = " ++ Fmt.d (dwType tables) ++ ","
    /\ line 20 (generate_kbd_tables H opt tables)
       = "    .dwSubType       = " ++ Fmt.d (dwSubType tables) ++ ",".
Proof.
  intros tables. unfold line, generate_header, generate_kbd_tables.
  cbn [nth]. unfold generate_kbd_type.
  repeat split.
  - intros Hopt Hty.
    destruct (Z.gtb_spec (kbd_type opt) 0); [lia|].
    destruct (Z.gtb_spec (dwType tables) 0); [|lia].
    destruct (Z.ltb_spec (dwType tables) 48); [|lia].
    reflexivity.
  - intros Hopt Hty.
    destruct (Z.gtb_spec (kbd_type opt) 0); [lia|].
    destruct (Z.gtb_spec (dwType tables) 0);
      destruct (Z.ltb_spec (dwType tables) 48); try reflexivity; lia.
  - intros Hopt.
    destruct (Z.gtb_spec (kbd_type opt) 0); [reflexivity|lia].
Qed.

End KeyboardType.

(** The three cases of the guess, on the header of kbdus.dll. *)
Lemma generate_type_scalar_cases :
  line 5 (generate_header file_name_id (opt_of false) (with_type kbdus_tables 7 0))
  = "#define KBD_TYPE 7"
  /\ line 5 (generate_header file_name_id (opt_of false) (with_type kbdus_tables 48 0))
     = "#define KBD_TYPE 4"
  /\ line 19 (generate_kbd_tables sdk (opt_of false) (with_type kbdus_tables 48 0))
     = "    .dwType          = 48,".
Proof.
  pose proof (generate_type_scalar sdk file_name_id (opt_of false)
                (with_type kbdus_tables 7 0)) as [H7 _].
  pose proof (generate_type_scalar sdk file_name_id (opt_of false)
                (with_type kbdus_tables 48 0)) as [_ [H48 [_ [Hfield _]]]].
  split; [| split].
  - apply H7; simpl; lia.
  - apply H48; simpl; lia.
  - exact Hfield.
Defined.

(** ** Plain numbers *)

Lemma dec_of_N_numeric_start : forall n, numeric_start (Fmt.dec_of_N n) = true.
Proof.
  intros [|p]; [reflexivity|].
  unfold Fmt.dec_of_N. simpl N.to_uint.
  pose proof (DecimalPos.Unsigned.to_uint_nonnil p) as Hnil.
  destruct (Pos.to_uint p); [congruence | reflexivity ..].
Qed.

(** What [integer] returns starts with a digit or with a minus sign. *)
Lemma integer_numeric_start :
  forall value hex_digits, numeric_start (integer value hex_digits) = true.
Proof.
  intros value hex_digits. unfold integer.
  destruct (hex_digits <=? 0); [|reflexivity].
  unfold Format_lld, Fmt.lld, Fmt.sign_of.
  destruct (value <? 0); [reflexivity|].
  apply dec_of_N_numeric_start.
Qed.


(** ** Strings *)

Lemma append_nil_r : forall s : string, s ++ EmptyString = s.
Proof. induction s as [|c s IH]; cbn; [reflexivity | rewrite IH; reflexivity]. Qed.



(** ** The numeric-only mode *)


Section NumericOnly.

Variable H : KbdHeader.
Variable opt : ReverseOptions.
Hypothesis Hnum : num_only opt = true.





End NumericOnly.




(** ** The loop of bitMask *)

Lemma flag_test_zero :
  forall k : Value, negb (k =? 0) && (Z.land 0 k =? k) = false.
Proof.
  intros k. rewrite Z.land_0_l.
  destruct (Z.eqb_spec k 0) as [->|Hk]; [reflexivity|].
  destruct (Z.eqb_spec 0 k); [lia | reflexivity].
Qed.

Lemma flags_matched_zero : forall symbols, flags_matched symbols 0 = [].
Proof.
  induction symbols as [|sym rest IH]; [reflexivity|].
  unfold flags_matched in *. cbn [filter].
  rewrite flag_test_zero. exact IH.
Qed.

(** On the value zero the loop returns the zero symbol if the table has
    one, and leaves the accumulators as they are otherwise. *)
Lemma bitMask_loop_zero :
  forall symbols str bits,
    bitMask_loop symbols 0 str bits
    = match map_find 0 symbols with
      | Some name => inl name
      | None => inr (str, bits)
      end.
Proof.
  induction symbols as [|sym rest IH]; intros str bits; [reflexivity|].
  cbn [bitMask_loop]. unfold map_find. cbn [find].
  rewrite flag_test_zero, Z.eqb_refl, andb_true_r.
  destruct (fst sym =? 0); [reflexivity|].
  rewrite IH. reflexivity.
Qed.

(** On another value the loop runs to the end of the table: it adds the
    names of the matched flags to [str] and their keys to [bits]. *)
Lemma bitMask_loop_nonzero :
  forall symbols value str bits,
    value <> 0 ->
    bitMask_loop symbols value str bits
    = inr (fold_left add_term (map snd (flags_matched symbols value)) str,
           fold_left Z.lor (map fst (flags_matched symbols value)) bits).
Proof.
  induction symbols as [|sym rest IH]; intros value str bits Hv; [reflexivity|].
  cbn [bitMask_loop]. unfold flags_matched in *. cbn [filter].
  destruct (Z.eqb_spec value 0) as [|_]; [contradiction|].
  rewrite andb_false_r.
  destruct (negb (fst sym =? 0) && (Z.land value (fst sym) =? fst sym));
    cbn [map fold_left]; apply IH; assumption.
Qed.

Lemma lor_keys_zero :
  forall ks bits, fold_left Z.lor ks bits = 0 -> bits = 0 /\ Forall (eq 0) ks.
Proof.
  induction ks as [|k ks IH]; intros bits Hz; cbn [fold_left] in Hz.
  - split; [assumption | constructor].
  - apply IH in Hz as [Hlor Hall].
    apply Z.lor_eq_0_iff in Hlor as [-> ->].
    split; [reflexivity | constructor; [reflexivity | assumption]].
Qed.

Lemma flags_matched_keys :
  forall symbols value,
    Forall (fun k => k <> 0) (map fst (flags_matched symbols value)).
Proof.
  intros symbols value. apply Forall_forall. intros k Hin.
  apply in_map_iff in Hin as [sym [<- Hin]].
  apply filter_In in Hin as [_ Htest].
  apply andb_true_iff in Htest as [Hk _].
  destruct (Z.eqb_spec (fst sym) 0); [discriminate | assumption].
Qed.

(** [bits] is not zero at the end of the loop exactly when a flag matched. *)
Lemma matched_bits_zero :
  forall symbols value,
    fold_left Z.lor (map fst (flags_matched symbols value)) 0 = 0
    <-> flags_matched symbols value = [].
Proof.
  intros symbols value. split.
  - intros Hz. apply lor_keys_zero in Hz as [_ Hall].
    pose proof (flags_matched_keys symbols value) as Hnz.
    destruct (flags_matched symbols value) as [|sym rest]; [reflexivity|].
    inversion Hall; inversion Hnz; subst. congruence.
  - intros ->. reflexivity.
Qed.

(** The result of [bitMask] once a flag matched: the joined terms. *)
Lemma bitMask_matched :
  forall opt symbols value hex_digits,
    num_only opt = false ->
    flags_matched symbols value <> [] ->
    bitMask opt symbols value hex_digits
    = join_terms (bitMask_terms symbols value hex_digits).
Proof.
  intros opt symbols value hex_digits Hopt Hm.
  assert (Hv : value <> 0).
  { intros ->. apply Hm, flags_matched_zero. }
  unfold bitMask. rewrite Hopt. cbn [negb].
  rewrite bitMask_loop_nonzero by assumption.
  destruct (Z.eqb_spec (fold_left Z.lor (map fst (flags_matched symbols value)) 0) 0)
    as [Hz|Hz].
  { apply matched_bits_zero in Hz. contradiction. }
  cbn [negb]. unfold join_terms, bitMask_terms, residual.
  rewrite fold_left_app.
  destruct (Z.land value
              (Z.lnot (fold_left Z.lor (map fst (flags_matched symbols value)) 0)) =? 0);
    reflexivity.
Qed.

(** The result of [bitMask] when no flag matched and the zero symbol does
    not apply: the plain number. *)
Lemma bitMask_unmatched :
  forall opt symbols value hex_digits,
    flags_matched symbols value = [] ->
    (if value =? 0 then map_find 0 symbols else None) = None ->
    bitMask opt symbols value hex_digits = integer value hex_digits.
Proof.
  intros opt symbols value hex_digits Hm Hzero.
  unfold bitMask. destruct (num_only opt); [reflexivity|]. cbn [negb].
  destruct (Z.eqb_spec value 0) as [->|Hv].
  - rewrite bitMask_loop_zero, Hzero. reflexivity.
  - rewrite bitMask_loop_nonzero, Hm by assumption. reflexivity.
Qed.

(** The result of [bitMask] on zero when the table has a zero symbol. *)
Lemma bitMask_zero_symbol :
  forall opt symbols hex_digits name,
    num_only opt = false ->
    map_find 0 symbols = Some name ->
    bitMask opt symbols 0 hex_digits = name.
Proof.
  intros opt symbols hex_digits name Hopt Hfind.
  unfold bitMask. rewrite Hopt. cbn [negb].
  rewrite bitMask_loop_zero, Hfind. reflexivity.
Qed.

(** *** Joined names do not look like numbers *)

Lemma add_term_start :
  forall str s, empty str = false ->
    numeric_start (add_term str s) = numeric_start str
    /\ empty (add_term str s) = false.
Proof.
  intros [|c str] s Hne; [discriminate|]. split; reflexivity.
Qed.

Lemma join_from_start :
  forall terms str, empty str = false ->
    numeric_start (fold_left add_term terms str) = numeric_start str.
Proof.
  induction terms as [|t terms IH]; intros str Hne; [reflexivity|].
  cbn [fold_left].
  destruct (add_term_start str t Hne) as [Hstart Hne'].
  rewrite IH by assumption. exact Hstart.
Qed.

Lemma map_find_in :
  forall value symbols name,
    map_find value symbols = Some name -> exists k, In (k, name) symbols.
Proof.
  intros value symbols name Hfind. unfold map_find in Hfind.
  destruct (find (fun e => fst e =? value) symbols) as [[k n]|] eqn:Hf;
    [|discriminate].
  apply find_some in Hf as [Hin _]. injection Hfind as <-.
  exists k. exact Hin.
Qed.

Lemma symbolic_name :
  forall symbols k name,
    symbolic_names symbols = true -> In (k, name) symbols ->
    empty name = false /\ numeric_start name = false.
Proof.
  intros symbols k name Hsym Hin. unfold symbolic_names in Hsym.
  rewrite forallb_forall in Hsym. apply Hsym in Hin. cbn [snd] in Hin.
  apply andb_true_iff in Hin as [He Hn].
  split; [destruct (empty name) | destruct (numeric_start name)];
    (reflexivity || discriminate).
Qed.

Lemma join_terms_symbolic :
  forall symbols value hex_digits,
    symbolic_names symbols = true ->
    flags_matched symbols value <> [] ->
    numeric_start (join_terms (bitMask_terms symbols value hex_digits)) = false.
Proof.
  intros symbols value hex_digits Hsym Hm.
  unfold join_terms, bitMask_terms.
  destruct (flags_matched symbols value) as [|[k name] rest] eqn:Hfm;
    [contradiction|].
  assert (Hin : In (k, name) symbols).
  { assert (Hin : In (k, name) (flags_matched symbols value))
      by (rewrite Hfm; left; reflexivity).
    apply filter_In in Hin as [Hin _]. exact Hin. }
  destruct (symbolic_name symbols k name Hsym Hin) as [Hne Hns].
  cbn [map app fold_left snd].
  assert (Hfirst : add_term EmptyString name = name) by reflexivity.
  rewrite Hfirst, join_from_start by assumption. exact Hns.
Qed.

(** ** bitMask and the plain number *)

(** On the table with the zero symbol NONE and the flag A, at the value 0:
    no flag matched, and [bitMask] returns NONE, which is not the plain
    number 0 that [integer] gives. *)
Lemma bitMask_zero_symbol_not_numeric :
  let symbols := SymbolTable_of [(0, "NONE"); (1, "A")] in
  flags_matched symbols 0 = []
  /\ bitMask (opt_of false) symbols 0 0 = "NONE"
  /\ integer 0 0 = "0"
  /\ bitMask (opt_of false) symbols 0 0 <> integer 0 0.
Proof. repeat split. discriminate. Qed.

(** C1, amended. Numeric-only mode off, on a table whose names start like
    identifiers. On the value 0, if the table has a zero symbol, [bitMask]
    returns its name. [bitMask] returns the plain number
    [integer(value, hex_digits)] exactly when no flag of the table matched
    and the zero symbol does not apply. When a flag matched, the result is
    the names of the matched flags, followed by the remaining bits if there
    are some, joined by [" | "]; it does not start like a number. *)
Theorem bitMask_numeric_iff :
  forall opt symbols value hex_digits,
    num_only opt = false ->
    symbolic_names symbols = true ->
    (forall name,
        value = 0 -> map_find 0 symbols = Some name ->
        bitMask opt symbols value hex_digits = name)
    /\ (bitMask opt symbols value hex_digits = integer value hex_digits
        <-> flags_matched symbols value = []
            /\ (if value =? 0 then map_find 0 symbols else None) = None)
    /\ (flags_matched symbols value <> [] ->
        bitMask opt symbols value hex_digits
        = join_terms (bitMask_terms symbols value hex_digits)
        /\ numeric_start (bitMask opt symbols value hex_digits) = false).
Proof.
  intros opt symbols value hex_digits Hopt Hsym.
  assert (Hmatched :
            flags_matched symbols value <> [] ->
            bitMask opt symbols value hex_digits
            = join_terms (bitMask_terms symbols value hex_digits)
            /\ numeric_start (bitMask opt symbols value hex_digits) = false).
  { intros Hm. rewrite bitMask_matched by assumption.
    split; [reflexivity | apply join_terms_symbolic; assumption]. }
  split; [| split].
  - intros name -> Hfind. apply bitMask_zero_symbol; assumption.
  - split.
    + intros Heq.
      pose proof (integer_numeric_start value hex_digits) as Hnum.
      rewrite <- Heq in Hnum.
      destruct (flags_matched symbols value) as [|sym rest] eqn:Hfm.
      * split; [reflexivity|].
        destruct (Z.eqb_spec value 0) as [->|Hv]; [|reflexivity].
        destruct (map_find 0 symbols) as [name|] eqn:Hfind; [|reflexivity].
        rewrite (bitMask_zero_symbol opt symbols hex_digits name Hopt Hfind) in Hnum.
        destruct (map_find_in 0 symbols name Hfind) as [k Hin].
        destruct (symbolic_name symbols k name Hsym Hin) as [_ Hns].
        congruence.
      * assert (Hm : flags_matched symbols value <> [])
          by (rewrite Hfm; discriminate).
        rewrite <- Hfm in Hmatched.
        destruct (Hmatched Hm) as [_ Hns]. congruence.
    + intros [Hm Hzero]. apply bitMask_unmatched; assumption.
  - exact Hmatched.
Qed.

(** The three cases on the tables of the spec's examples. *)
Lemma bitMask_numeric_iff_run :
  bitMask (opt_of false) (SymbolTable_of [(0, "NONE"); (1, "A")]) 0 0 = "NONE"
  /\ bitMask (opt_of false) (SymbolTable_of [(1, "A"); (4, "B")]) 10 0 = "10"
  /\ bitMask (opt_of false) (SymbolTable_of [(1, "A"); (4, "B")]) 5 0 = "A | B".
Proof.
  split; [| split].
  - apply (bitMask_numeric_iff (opt_of false)
             (SymbolTable_of [(0, "NONE"); (1, "A")]) 0 0 eq_refl eq_refl);
      reflexivity.
  - change "10" with (integer 10 0).
    apply (bitMask_numeric_iff (opt_of false)
             (SymbolTable_of [(1, "A"); (4, "B")]) 10 0 eq_refl eq_refl).
    split; reflexivity.
  - change "A | B"
      with (join_terms (bitMask_terms (SymbolTable_of [(1, "A"); (4, "B")]) 5 0)).
    apply (bitMask_numeric_iff (opt_of false)
             (SymbolTable_of [(1, "A"); (4, "B")]) 5 0 eq_refl eq_refl).
    discriminate.
Defined.

(** ** The remaining bits *)

(** C2. When flags matched and bits remain, the remaining bits are joined
    after the names with [" | "] and the prefix 0x, but their digits are
    decimal: the format of the term is 0x%0*lld where [integer] has
    0x%0*llX. With the attribute symbols of kbd.h, the attributes 0x11 come
    out as CAPLOK with 0x16, where the remaining bits are 0x10; the example
    of the spec, whose remaining bits are below ten, comes out as the spec
    has it. *)
Theorem bitMask_residual_in_decimal :
  (forall opt symbols value hex_digits,
      num_only opt = false ->
      flags_matched symbols value <> [] ->
      residual symbols value <> 0 ->
      bitMask opt symbols value hex_digits
      = join_terms
          (map snd (flags_matched symbols value)
           ++ [("0x" ++ Fmt.lld_0star hex_digits (residual symbols value))%string])%list)
  /\ bitMask (opt_of false) (vk_attr_symbols sdk) 17 2 = "CAPLOK | 0x16"
  /\ residual (vk_attr_symbols sdk) 17 = 16
  /\ integer 16 2 = "0x10"
  /\ bitMask (opt_of false) (SymbolTable_of [(1, "A"); (4, "B")]) 17 0 = "A | 0x16"
  /\ bitMask (opt_of false) (SymbolTable_of [(1, "A"); (4, "B")]) 9 0 = "A | 0x8".
Proof.
  split; [| repeat split].
  intros opt symbols value hex_digits Hopt Hm Hres.
  rewrite bitMask_matched by assumption. unfold bitMask_terms.
  destruct (Z.eqb_spec (residual symbols value) 0); [contradiction|].
  reflexivity.
Qed.

(** ** The order of a symbol table *)

Lemma map_insert_hd :
  forall e t k,
    k < fst e -> HdRel Z.lt k (keys t) -> HdRel Z.lt k (keys (map_insert e t)).
Proof.
  intros e [|e' r] k Hk Hhd; cbn [map_insert].
  - constructor. exact Hk.
  - destruct (fst e <? fst e'); [constructor; exact Hk|].
    destruct (fst e =? fst e'); [exact Hhd|].
    inversion Hhd; subst. constructor. assumption.
Qed.

(** Insertion keeps the keys in strictly ascending order. *)
Lemma map_insert_sorted :
  forall e t, Sorted Z.lt (keys t) -> Sorted Z.lt (keys (map_insert e t)).
Proof.
  intros e. induction t as [|e' r IH]; intros Hs; cbn [map_insert].
  - repeat constructor.
  - inversion Hs as [|? ? Hr Hhd]; subst.
    destruct (Z.ltb_spec (fst e) (fst e')) as [Hlt|Hge].
    + constructor; [exact Hs | constructor; exact Hlt].
    + destruct (Z.eqb_spec (fst e) (fst e')) as [Heq|Hne]; [exact Hs|].
      cbn [keys map]. constructor.
      * apply IH. exact Hr.
      * apply map_insert_hd; [lia | exact Hhd].
Qed.

Lemma fold_insert_sorted :
  forall decl t,
    Sorted Z.lt (keys t) ->
    Sorted Z.lt (keys (fold_left (fun t e => map_insert e t) decl t)).
Proof.
  induction decl as [|e decl IH]; intros t Hs; cbn [fold_left].
  - exact Hs.
  - apply IH, map_insert_sorted, Hs.
Qed.

(** Two insertions of different keys give the same table in both orders. *)
Lemma map_insert_comm :
  forall a b t,
    fst a <> fst b ->
    map_insert a (map_insert b t) = map_insert b (map_insert a t).
Proof.
  intros a b t Hab. induction t as [|e r IH]; cbn [map_insert].
  - destruct (Z.ltb_spec (fst a) (fst b)); destruct (Z.ltb_spec (fst b) (fst a));
      destruct (Z.eqb_spec (fst a) (fst b)); destruct (Z.eqb_spec (fst b) (fst a));
      try lia; reflexivity.
  - destruct (Z.ltb_spec (fst a) (fst e)); destruct (Z.ltb_spec (fst b) (fst e));
      destruct (Z.eqb_spec (fst a) (fst e)); destruct (Z.eqb_spec (fst b) (fst e));
      try lia; cbn [map_insert];
      repeat match goal with
        | |- context [?x <? ?y] => destruct (Z.ltb_spec x y); try lia
        | |- context [?x =? ?y] => destruct (Z.eqb_spec x y); try lia
        end;
      try reflexivity.
    rewrite IH. reflexivity.
Qed.

Lemma fold_insert_permutation :
  forall decl decl',
    Permutation decl decl' ->
    NoDup (keys decl) ->
    forall t,
      fold_left (fun t e => map_insert e t) decl t
      = fold_left (fun t e => map_insert e t) decl' t.
Proof.
  induction 1 as [|x l l' Hp IH|x y l|l l' l'' Hp1 IH1 Hp2 IH2];
    intros Hnd t; cbn [fold_left].
  - reflexivity.
  - apply IH. inversion Hnd; assumption.
  - rewrite map_insert_comm; [reflexivity|].
    cbn [keys map] in Hnd. inversion Hnd as [|? ? Hnin _]; subst.
    intros Heq. apply Hnin. left. exact Heq.
  - rewrite IH1 by assumption. apply IH2.
    apply (Permutation_NoDup (l := keys l)); [|assumption].
    apply Permutation_map. exact Hp1.
Qed.

Lemma map_insert_last :
  forall e t,
    Forall (fun k => k < fst e) (keys t) -> map_insert e t = (t ++ [e])%list.
Proof.
  intros e. induction t as [|e' r IH]; intros Hall; cbn [map_insert].
  - reflexivity.
  - cbn [keys map] in Hall. inversion Hall; subst.
    destruct (Z.ltb_spec (fst e) (fst e')); [lia|].
    destruct (Z.eqb_spec (fst e) (fst e')); [lia|].
    cbn [app]. f_equal. apply IH. assumption.
Qed.

Lemma fold_insert_ascending :
  forall decl t,
    StronglySorted Z.lt (keys (t ++ decl)%list) ->
    fold_left (fun t e => map_insert e t) decl t = (t ++ decl)%list.
Proof.
  induction decl as [|e decl IH]; intros t Hs; cbn [fold_left].
  - rewrite app_nil_r. reflexivity.
  - assert (Hlast : map_insert e t = (t ++ [e])%list).
    { apply map_insert_last. unfold keys in *. rewrite map_app in Hs.
      clear IH. induction (map fst t) as [|k ks IHk]; [constructor|].
      cbn [app] in Hs. inversion Hs as [|? ? Hs' Hall]; subst.
      constructor.
      - rewrite Forall_forall in Hall. apply Hall.
        apply in_or_app. right. left. reflexivity.
      - apply IHk. exact Hs'. }
    rewrite Hlast, IH; rewrite <- app_assoc; [reflexivity | exact Hs].
Qed.

(** On the table declared as B = 4 then A = 1, at the value 5: [bitMask]
    joins A then B, where the order of the declaration is B then A. *)
Lemma bitMask_not_in_declared_order :
  let decl := [(4, "B"); (1, "A")] in
  bitMask (opt_of false) (SymbolTable_of decl) 5 0 = "A | B"
  /\ bitMask_declared_order (opt_of false) decl 5 0 = "B | A"
  /\ map snd (flags_matched (SymbolTable_of decl) 5) = ["A"; "B"].
Proof. repeat split. Qed.

(** The matched entries of a table are a part of it, in its order. *)
Lemma filter_keys_sorted :
  forall (p : Z * string -> bool) t,
    StronglySorted Z.lt (keys t) -> StronglySorted Z.lt (keys (filter p t)).
Proof.
  intros p. induction t as [|e t IH]; intros Hs; [constructor|].
  cbn [keys map] in Hs. apply StronglySorted_inv in Hs as [Hs Hall].
  cbn [filter]. destruct (p e); [|apply IH, Hs].
  cbn [keys map]. constructor; [apply IH, Hs|].
  rewrite Forall_forall in *. intros k Hk. apply Hall.
  unfold keys in *. apply in_map_iff in Hk as (x & <- & Hx).
  apply in_map. apply filter_In in Hx. apply Hx.
Qed.

Lemma filter_permutation :
  forall (A : Type) (p : A -> bool) (l l' : list A),
    Permutation l l' -> Permutation (filter p l) (filter p l').
Proof.
  intros A p l l' Hp.
  induction Hp as [|x l l' Hp IH|x y l|l l' l'' Hp1 IH1 Hp2 IH2]; cbn [filter].
  - constructor.
  - destruct (p x); [apply perm_skip|]; exact IH.
  - destruct (p x), (p y); try apply Permutation_refl. apply perm_swap.
  - eapply perm_trans; eassumption.
Qed.

(** The insertion of a new key adds the entry. *)
Lemma map_insert_new :
  forall e t, ~ In (fst e) (keys t) -> Permutation (e :: t) (map_insert e t).
Proof.
  intros e. induction t as [|e' r IH]; intros Hnin; cbn [map_insert].
  - apply Permutation_refl.
  - destruct (fst e <? fst e'); [apply Permutation_refl|].
    destruct (Z.eqb_spec (fst e) (fst e')) as [Heq|Hne].
    + exfalso. apply Hnin. left. symmetry. exact Heq.
    + eapply perm_trans; [apply perm_swap|]. apply perm_skip. apply IH.
      intros Hin. apply Hnin. right. exact Hin.
Qed.

Lemma fold_insert_entries :
  forall decl t,
    NoDup (keys (t ++ decl)%list) ->
    Permutation (t ++ decl)%list (fold_left (fun t e => map_insert e t) decl t).
Proof.
  induction decl as [|e decl IH]; intros t Hnd; cbn [fold_left].
  - rewrite app_nil_r. apply Permutation_refl.
  - assert (Hp : Permutation (e :: t) (map_insert e t)).
    { apply map_insert_new. unfold keys in *. rewrite map_app in Hnd.
      cbn [map] in Hnd. apply NoDup_remove_2 in Hnd.
      intros Hin. apply Hnd. apply in_or_app. left. exact Hin. }
    eapply perm_trans; [|apply IH].
    + eapply perm_trans; [apply Permutation_sym, Permutation_middle|].
      apply (Permutation_app_tail decl Hp).
    + apply (Permutation_NoDup (l := keys (t ++ e :: decl)%list)); [|exact Hnd].
      apply Permutation_map.
      eapply perm_trans; [apply Permutation_sym, Permutation_middle|].
      apply (Permutation_app_tail decl Hp).
Qed.

(** The keys of a table are in strictly ascending order, whatever its
    declaration. *)
Lemma SymbolTable_of_sorted :
  forall decl, StronglySorted Z.lt (keys (SymbolTable_of decl)).
Proof.
  intros decl. apply Sorted_StronglySorted.
  - intros x y z. apply Z.lt_trans.
  - apply fold_insert_sorted. constructor.
Qed.

(** The entries of a table are entries of its declaration. *)
Lemma map_insert_in :
  forall x e t, In x (map_insert e t) -> x = e \/ In x t.
Proof.
  intros x e. induction t as [|e' r IH]; cbn [map_insert]; intros Hin.
  - destruct Hin as [<-|[]]. left. reflexivity.
  - destruct (fst e <? fst e').
    + destruct Hin as [<-|Hin]; [left; reflexivity | right; exact Hin].
    + destruct (fst e =? fst e'); [right; exact Hin|].
      destruct Hin as [<-|Hin]; [right; left; reflexivity|].
      destruct (IH Hin) as [->|Hr]; [left; reflexivity | right; right; exact Hr].
Qed.

Lemma fold_insert_in :
  forall x decl t,
    In x (fold_left (fun t e => map_insert e t) decl t) -> In x t \/ In x decl.
Proof.
  intros x. induction decl as [|e decl IH]; intros t Hin; cbn [fold_left] in Hin.
  - left. exact Hin.
  - destruct (IH _ Hin) as [Ht|Hd]; [|right; right; exact Hd].
    destruct (map_insert_in _ _ _ Ht) as [->|Ht'];
      [right; left; reflexivity | left; exact Ht'].
Qed.

(** C3, amended. [bitMask] tests the entries of a table in ascending order
    of their keys, the order of [std::map], whatever the order of the
    declaration. The entries whose names [bitMask] joins are declared
    entries whose flag is set in the value, in strictly ascending order of
    their keys; after a match the result is their names in this order,
    then the remaining bits. The table is iterated in the order of its
    declaration exactly when the declaration has strictly ascending keys,
    and [bitMask] is then the loop over the declared list. For a
    declaration with distinct keys, the entries joined are all the
    declared entries whose flag is set, and two declarations of the same
    entries give the same result. *)
Theorem bitMask_key_order :
  forall opt decl value hex_digits,
    num_only opt = false ->
    let table := SymbolTable_of decl in
    StronglySorted Z.lt (keys (flags_matched table value))
    /\ incl (flags_matched table value) (flags_matched decl value)
    /\ (flags_matched table value <> [] ->
        bitMask opt table value hex_digits
        = join_terms
            (map snd (flags_matched table value)
             ++ (if residual table value =? 0 then []
                 else [Format_0x_0star_lld hex_digits (residual table value)]))%list)
    /\ (table = decl <-> StronglySorted Z.lt (keys decl))
    /\ (StronglySorted Z.lt (keys decl) ->
        bitMask opt table value hex_digits
        = bitMask_declared_order opt decl value hex_digits)
    /\ (NoDup (keys decl) ->
        Permutation (flags_matched table value) (flags_matched decl value)
        /\ forall decl',
            Permutation decl decl' ->
            bitMask opt (SymbolTable_of decl') value hex_digits
            = bitMask opt table value hex_digits).
Proof.
  intros opt decl value hex_digits Hopt table.
  assert (Hid : StronglySorted Z.lt (keys decl) -> table = decl).
  { intros Hs. apply (fold_insert_ascending decl []). exact Hs. }
  repeat apply conj.
  - apply filter_keys_sorted, SymbolTable_of_sorted.
  - intros e He. apply filter_In in He as [He Hm]. apply filter_In.
    split; [|exact Hm].
    destruct (fold_insert_in e decl [] He) as [[]|Hd]. exact Hd.
  - intros Hm. apply bitMask_matched; assumption.
  - intros Heq. rewrite <- Heq. apply SymbolTable_of_sorted.
  - exact Hid.
  - intros Hs. unfold bitMask_declared_order. rewrite (Hid Hs). reflexivity.
  - intros Hnd. split.
    + apply filter_permutation, Permutation_sym.
      apply (fold_insert_entries decl []). exact Hnd.
    + intros decl' Hp. unfold table, SymbolTable_of.
      rewrite (fold_insert_permutation decl decl' Hp Hnd). reflexivity.
Qed.

(** The flags B = 4 and A = 1, declared in this order, at the value 13. *)
Lemma bitMask_key_order_run :
  let decl := [(4, "B"); (1, "A")] in
  bitMask (opt_of false) (SymbolTable_of decl) 13 0 = "A | B | 0x8"
  /\ keys (flags_matched (SymbolTable_of decl) 13) = [1; 4]
  /\ bitMask (opt_of false) (SymbolTable_of [(1, "A"); (4, "B")]) 13 0
     = bitMask (opt_of false) (SymbolTable_of decl) 13 0
  /\ SymbolTable_of decl <> decl.
Proof.
  assert (Hnd : NoDup (keys [(4, "B"); (1, "A")])).
  { repeat constructor; simpl; intuition lia. }
  destruct (bitMask_key_order (opt_of false) [(4, "B"); (1, "A")] 13 0 eq_refl)
    as (_ & _ & Hterms & Hiff & _ & Hdistinct).
  destruct (Hdistinct Hnd) as [_ Hsame].
  repeat apply conj.
  - rewrite Hterms; [reflexivity | discriminate].
  - reflexivity.
  - apply Hsame. apply perm_swap.
  - intros Heq. apply Hiff in Heq.
    apply StronglySorted_inv in Heq as [_ Hall].
    inversion Hall as [|? ? Hlt _]. discriminate Hlt.
Defined.

(** ** Walks of sentinel-terminated arrays *)

Lemma record_at_next :
  forall p size i, record_at p size (S i) = record_at (uintptr (p + size)) size i.
Proof.
  intros p sz i. unfold record_at.
  exact (Nat.iter_succ_r i Z (fun a => uintptr (a + sz)) p).
Qed.

Lemma sentinel_first_next :
  forall mem p size k,
    sentinel_first mem p size (S k) ->
    read8 mem p <> 0 /\ sentinel_first mem (uintptr (p + size)) size k.
Proof.
  intros mem p size k [Hbefore Hat]. split.
  - apply (Hbefore O). lia.
  - split.
    + intros i Hi. rewrite <- record_at_next. apply Hbefore. lia.
    + rewrite <- record_at_next. exact Hat.
Qed.

Lemma no_sentinel_next :
  forall mem p size,
    no_sentinel mem p size ->
    read8 mem p <> 0 /\ no_sentinel mem (uintptr (p + size)) size.
Proof.
  intros mem p size Hno. split.
  - apply (Hno O).
  - intros i. rewrite <- record_at_next. apply Hno.
Qed.

Lemma addLine_length :
  forall (grid : Grid) (l : Line), List.length (addLine grid l) = S (List.length grid).
Proof. intros. unfold addLine. rewrite length_app. simpl. lia. Qed.

Lemma addColumn_length :
  forall (grid : Grid) s, grid <> [] -> List.length (addColumn grid s) = List.length grid.
Proof.
  induction grid as [|l [|l' rest] IH]; intros s Hne.
  - contradiction.
  - reflexivity.
  - change (addColumn (l :: l' :: rest) s) with (l :: addColumn (l' :: rest) s).
    cbn [List.length]. f_equal. apply IH. discriminate.
Qed.

Section WalkProperties.

Variable H : KbdHeader.
Variable opt : ReverseOptions.
Variable mem : Memory.

Lemma genVkToBits_loop_stops :
  forall k fuel vtb grid,
    sentinel_first mem vtb 2 k ->
    ((k < fuel)%nat ->
       exists grid',
         genVkToBits_loop H opt mem fuel vtb grid = Some (grid', record_at vtb 2 k)
         /\ List.length grid' = (List.length grid + k)%nat)
    /\ ((fuel <= k)%nat -> genVkToBits_loop H opt mem fuel vtb grid = None).
Proof.
  induction k as [|k IH]; intros fuel vtb grid Hs.
  - destruct Hs as [_ Hat]. cbn in Hat. split.
    + intros Hf. destruct fuel as [|fuel]; [lia|].
      cbn [genVkToBits_loop]. rewrite Hat. cbn.
      exists grid. split; [reflexivity | lia].
    + intros Hf. assert (fuel = O) by lia. subst. reflexivity.
  - apply sentinel_first_next in Hs as [Hkey Hs].
    destruct fuel as [|fuel]; [split; [lia | reflexivity]|].
    cbn [genVkToBits_loop].
    destruct (Z.eqb_spec (read8 mem vtb) 0) as [|_]; [contradiction|].
    cbn [negb]. rewrite record_at_next.
    match goal with
    | |- context [genVkToBits_loop _ _ _ fuel ?p ?g] =>
        destruct (IH fuel p g Hs) as [Hstop Hrun]
    end.
    split.
    + intros Hf. destruct Hstop as [grid' [Heq Hlen]]; [lia|].
      exists grid'. split; [exact Heq|].
      rewrite Hlen, addLine_length. lia.
    + intros Hf. apply Hrun. lia.
Qed.

Lemma genVkToBits_loop_runs :
  forall fuel vtb grid,
    no_sentinel mem vtb 2 -> genVkToBits_loop H opt mem fuel vtb grid = None.
Proof.
  induction fuel as [|fuel IH]; intros vtb grid Hno; [reflexivity|].
  apply no_sentinel_next in Hno as [Hkey Hno].
  cbn [genVkToBits_loop].
  destruct (Z.eqb_spec (read8 mem vtb) 0) as [|_]; [contradiction|].
  cbn [negb]. apply IH. exact Hno.
Qed.

Lemma wch_columns_length :
  forall n i count vtwc (grid : Grid) comments,
    grid <> [] ->
    List.length (fst (wch_columns H opt mem n i count vtwc grid comments))
    = List.length grid
    /\ fst (wch_columns H opt mem n i count vtwc grid comments) <> [].
Proof.
  induction n as [|n IH]; intros i count vtwc grid comments Hne.
  - split; [reflexivity | exact Hne].
  - cbn [wch_columns].
    destruct (wchar H opt (read16 mem (uintptr (vtwc + 2 + 2 * i))) comments)
      as [str comments'].
    match goal with
    | |- context [wch_columns _ _ _ n _ _ _ (addColumn grid ?s) _] =>
        assert (Hlen : List.length (addColumn grid s) = List.length grid)
          by (apply addColumn_length; exact Hne);
        assert (Hne' : addColumn grid s <> [])
          by (intros Hnil; rewrite Hnil in Hlen; destruct grid;
              [contradiction | discriminate]);
        destruct (IH (i + 1) count vtwc (addColumn grid s) comments' Hne')
          as [Hl Hn]
    end.
    split; [rewrite Hl; exact Hlen | exact Hn].
Qed.

(** One record of [genSubVkToWchar] adds one line to the grid. *)
Lemma genSubVkToWchar_record_length :
  forall vtwc count (grid : Grid) line,
    let '(grid', comments) :=
      wch_columns H opt mem (Z.to_nat count) 0 count vtwc (addLine grid line) [] in
    List.length
      match comments with
      | [] => grid'
      | _ => addColumn grid' ("// " ++ Join comments ", ")
      end
    = S (List.length grid).
Proof.
  intros vtwc count grid line.
  assert (Hne : addLine grid line <> []).
  { unfold addLine. destruct grid; discriminate. }
  pose proof (wch_columns_length (Z.to_nat count) 0 count vtwc
                (addLine grid line) [] Hne) as [Hlen Hne'].
  destruct (wch_columns H opt mem (Z.to_nat count) 0 count vtwc
              (addLine grid line) []) as [grid' comments].
  cbn [fst] in Hlen, Hne'.
  destruct comments.
  - rewrite Hlen. apply addLine_length.
  - rewrite addColumn_length by exact Hne'. rewrite Hlen. apply addLine_length.
Qed.

Lemma genSubVkToWchar_loop_stops :
  forall count size k fuel vtwc grid,
    sentinel_first mem vtwc size k ->
    ((k < fuel)%nat ->
       exists grid',
         genSubVkToWchar_loop H opt mem fuel vtwc count size grid
         = Some (grid', record_at vtwc size k)
         /\ List.length grid' = (List.length grid + k)%nat)
    /\ ((fuel <= k)%nat ->
        genSubVkToWchar_loop H opt mem fuel vtwc count size grid = None).
Proof.
  intros count size. induction k as [|k IH]; intros fuel vtwc grid Hs.
  - destruct Hs as [_ Hat]. cbn in Hat. split.
    + intros Hf. destruct fuel as [|fuel]; [lia|].
      cbn [genSubVkToWchar_loop]. rewrite Hat. cbn.
      exists grid. split; [reflexivity | lia].
    + intros Hf. assert (fuel = O) by lia. subst. reflexivity.
  - apply sentinel_first_next in Hs as [Hkey Hs].
    destruct fuel as [|fuel]; [split; [lia | reflexivity]|].
    cbn [genSubVkToWchar_loop].
    destruct (Z.eqb_spec (read8 mem vtwc) 0) as [|_]; [contradiction|].
    cbn [negb]. rewrite record_at_next.
    match goal with
    | |- context [wch_columns _ _ _ _ _ _ _ (addLine grid ?l) _] =>
        pose proof (genSubVkToWchar_record_length vtwc count grid l) as Hlen
    end.
    destruct (wch_columns H opt mem (Z.to_nat count) 0 count vtwc _ [])
      as [grid1 comments].
    match goal with
    | |- context [genSubVkToWchar_loop _ _ _ fuel ?p _ _ ?g] =>
        destruct (IH fuel p g Hs) as [Hstop Hrun]
    end.
    split.
    + intros Hf. destruct Hstop as [grid' [Heq Hlen']]; [lia|].
      exists grid'. split; [exact Heq|].
      rewrite Hlen', Hlen. lia.
    + intros Hf. apply Hrun. lia.
Qed.

Lemma genSubVkToWchar_loop_runs :
  forall count size fuel vtwc grid,
    no_sentinel mem vtwc size ->
    genSubVkToWchar_loop H opt mem fuel vtwc count size grid = None.
Proof.
  intros count size.
  induction fuel as [|fuel IH]; intros vtwc grid Hno; [reflexivity|].
  apply no_sentinel_next in Hno as [Hkey Hno].
  cbn [genSubVkToWchar_loop].
  destruct (Z.eqb_spec (read8 mem vtwc) 0) as [|_]; [contradiction|].
  cbn [negb].
  destruct (wch_columns H opt mem (Z.to_nat count) 0 count vtwc _ [])
    as [grid1 comments].
  apply IH. exact Hno.
Qed.

End WalkProperties.

Lemma no_sentinel_filled :
  forall b p sz, b <> 0 -> no_sentinel (filled b) p sz.
Proof. intros b p sz Hb i. exact Hb. Qed.

(** In a memory image where every byte is 1, the walks of [genVkToBits]
    and of [genSubVkToWchar] are still running after any number of steps:
    there is no cap on the iterations and no failure is raised. The second
    walk also runs forever over records of size 0 when the first key is
    not zero, whatever follows in memory. *)
Lemma walks_without_sentinel_run_forever :
  never_stops
    (fun fuel => genVkToBits sdk (opt_of false) (filled 1) fuel 0 "vk_to_bits")
  /\ never_stops
       (fun fuel =>
          genSubVkToWchar sdk (opt_of false) (filled 1) fuel 0 2 6 "vk_to_wchar2")
  /\ never_stops
       (fun fuel =>
          genSubVkToWchar sdk (opt_of false) (image [65; 0; 0; 0; 0; 0]) fuel 0 1 0
            "vk_to_wchar1").
Proof.
  split; [| split]; intros fuel.
  - unfold genVkToBits.
    rewrite genVkToBits_loop_runs; [reflexivity|].
    apply no_sentinel_filled. discriminate.
  - unfold genSubVkToWchar.
    rewrite genSubVkToWchar_loop_runs; [reflexivity|].
    apply no_sentinel_filled. discriminate.
  - unfold genSubVkToWchar.
    rewrite genSubVkToWchar_loop_runs; [reflexivity|].
    intros i. assert (Hat : record_at 0 0 i = 0).
    { induction i as [|i IH]; [reflexivity|].
      unfold record_at in *. rewrite Nat.iter_succ, IH. reflexivity. }
    rewrite Hat. discriminate.
Qed.

(** C6, amended. The walks of [genVkToBits] and [genSubVkToWchar] stop at
    the first record whose key is zero, and nowhere else. If this is the
    record [k], the walk ends at the test number [k + 1] of its loop, with
    a grid of [k + 1] lines and an extent that ends after the record [k];
    it is still running after [k] tests or fewer. If no record has a zero
    key, the walk is still running after any number of tests: the loops
    have no iteration cap and raise no failure. *)
Theorem walks_stop_only_at_sentinel :
  forall (H : KbdHeader) (opt : ReverseOptions) (mem : Memory) (name : WString),
    (forall vtb k fuel,
        sentinel_first mem vtb 2 k ->
        ((k < fuel)%nat ->
           exists grid,
             genVkToBits H opt mem fuel vtb name
             = Some (grid,
                     DS.setEnd {| name := name; address := vtb; size := 0 |}
                       (record_at vtb 2 (S k)))
             /\ List.length grid = S k)
        /\ ((fuel <= k)%nat -> genVkToBits H opt mem fuel vtb name = None))
    /\ (forall vtwc count sz k fuel,
          sentinel_first mem vtwc sz k ->
          ((k < fuel)%nat ->
             exists grid,
               genSubVkToWchar H opt mem fuel vtwc count sz name
               = Some (grid,
                       DS.setEnd {| name := name; address := vtwc; size := 0 |}
                         (record_at vtwc sz (S k)))
               /\ List.length grid = S k)
          /\ ((fuel <= k)%nat ->
              genSubVkToWchar H opt mem fuel vtwc count sz name = None))
    /\ (forall vtb,
          no_sentinel mem vtb 2 ->
          never_stops (fun fuel => genVkToBits H opt mem fuel vtb name))
    /\ (forall vtwc count sz,
          no_sentinel mem vtwc sz ->
          never_stops
            (fun fuel => genSubVkToWchar H opt mem fuel vtwc count sz name)).
Proof.
  intros H opt mem name. repeat apply conj.
  - intros vtb k fuel Hs.
    destruct (genVkToBits_loop_stops H opt mem k fuel vtb [] Hs) as [Hstop Hrun].
    unfold genVkToBits. split.
    + intros Hf. destruct (Hstop Hf) as [grid [-> Hlen]].
      eexists. split; [reflexivity|].
      rewrite addLine_length, Hlen. reflexivity.
    + intros Hf. rewrite (Hrun Hf). reflexivity.
  - intros vtwc count sz k fuel Hs.
    destruct (genSubVkToWchar_loop_stops H opt mem count sz k fuel vtwc [] Hs)
      as [Hstop Hrun].
    unfold genSubVkToWchar. split.
    + intros Hf. destruct (Hstop Hf) as [grid [-> Hlen]].
      eexists. split; [reflexivity|].
      rewrite addLine_length, Hlen. reflexivity.
    + intros Hf. rewrite (Hrun Hf). reflexivity.
  - intros vtb Hno fuel. unfold genVkToBits.
    rewrite genVkToBits_loop_runs by exact Hno. reflexivity.
  - intros vtwc count sz Hno fuel. unfold genSubVkToWchar.
    rewrite genSubVkToWchar_loop_runs by exact Hno. reflexivity.
Qed.

(** A table of two modifier keys and its sentinel: three tests of the loop
    end the walk, two do not. *)
Lemma walks_stop_only_at_sentinel_run :
  let mem := image [16; 1; 17; 2; 0; 0] in
  (exists grid,
      genVkToBits sdk (opt_of false) mem 3 0 "vk_to_bits"
      = Some (grid, {| name := "vk_to_bits"; address := 0; size := 6 |})
      /\ List.length grid = 3%nat)
  /\ genVkToBits sdk (opt_of false) mem 2 0 "vk_to_bits" = None.
Proof.
  intros mem.
  assert (Hs : sentinel_first mem 0 2 2).
  { split; [|reflexivity].
    intros [|[|i]] Hi; [discriminate | discriminate | lia]. }
  destruct (walks_stop_only_at_sentinel sdk (opt_of false) mem "vk_to_bits")
    as [Hbits _].
  split.
  - destruct (Hbits 0 2%nat 3%nat Hs) as [Hstop _]. apply Hstop. lia.
  - destruct (Hbits 0 2%nat 2%nat Hs) as [_ Hrun]. apply Hrun. lia.
Defined.

(** ** Extents *)

Lemma uintptr_small : forall a, 0 <= a < 2 ^ 64 -> uintptr a = a.
Proof. intros a Ha. apply Z.mod_small. exact Ha. Qed.

Lemma uintptr_range : forall a, 0 <= uintptr a < 2 ^ 64.
Proof. intros a. apply Z.mod_pos_bound. reflexivity. Qed.

Lemma end_in_range :
  forall d, in_range d -> DS.end_ d = address d + size d.
Proof.
  intros d (Ha & Hs & Hlt). unfold DS.end_. apply uintptr_small. lia.
Qed.


(** The merged extent starts where [previous] starts and ends where
    [current] ends. *)
Lemma merge_spans :
  forall previous current,
    name (merge previous current) = name previous
    /\ address (merge previous current) = address previous
    /\ DS.end_ (merge previous current) = DS.end_ current.
Proof.
  intros previous current. repeat split.
  unfold merge, DS.end_. cbn [address size]. unfold uintptr.
  rewrite Zplus_mod_idemp_r.
  replace (address previous + ((address current + size current) mod 2 ^ 64
                               - address previous))
    with ((address current + size current) mod 2 ^ 64) by lia.
  apply Z.mod_mod. discriminate.
Qed.

(** The extent made for a gap covers the gap. *)
Lemma inter_covers :
  forall mem previous current,
    DS.end_ previous <= address current < 2 ^ 64 ->
    inter mem previous current
    = {| name := if IsZero mem (DS.end_ previous) (address current)
                 then "Padding" else "Unreferenced";
         address := DS.end_ previous;
         size := address current - DS.end_ previous |}.
Proof.
  intros mem previous current Hgap. unfold inter, DS.range.
  rewrite uintptr_small; [reflexivity|].
  pose proof (uintptr_range (address previous + size previous)) as Hr.
  unfold DS.end_ in *. lia.
Qed.

Section PairSteps.

Variable mem : Memory.

Lemma scan_merge :
  forall fuel previous current after,
    merge_test mem previous current = true ->
    scan mem (S fuel) previous (current :: after)
    = scan mem fuel (merge previous current) after.
Proof. intros * Ht. cbn [scan]. rewrite Ht. reflexivity. Qed.

Lemma scan_gap :
  forall fuel previous current after,
    merge_test mem previous current = false ->
    DS.end_ previous < address current ->
    scan mem (S fuel) previous (current :: after)
    = option_map (cons previous)
        (scan mem fuel (inter mem previous current) (current :: after)).
Proof.
  intros * Ht Hgap. cbn [scan]. rewrite Ht.
  destruct (Z.ltb_spec (DS.end_ previous) (address current)); [reflexivity | lia].
Qed.

Lemma scan_advance :
  forall fuel previous current after,
    merge_test mem previous current = false ->
    address current <= DS.end_ previous ->
    scan mem (S fuel) previous (current :: after)
    = option_map (cons previous) (scan mem fuel current after).
Proof.
  intros * Ht Hgap. cbn [scan]. rewrite Ht.
  destruct (Z.ltb_spec (DS.end_ previous) (address current)); [lia | reflexivity].
Qed.

End PairSteps.

(** ** The stable sort *)

Lemma sort_insert_head :
  forall d l,
    ascending l ->
    ascending (sort_insert d l)
    /\ (forall x, address x <= address d ->
                  (forall c r, l = c :: r -> address x <= address c) ->
                  forall c r, sort_insert d l = c :: r -> address x <= address c).
Proof.
  intros d. induction l as [|y r IH]; intros Hl.
  - split; [exact I|].
    intros x Hx _ c r Heq. injection Heq as <- _. exact Hx.
  - cbn [sort_insert]. unfold DS.lt.
    destruct (Z.ltb_spec (address y) (address d)) as [Hlt|Hge].
    + assert (Hr : ascending r) by (destruct r; [exact I | apply Hl]).
      destruct (IH Hr) as [Hasc Hhd]. split.
      * destruct (sort_insert d r) as [|c r'] eqn:Hi; [exact I|].
        split; [|exact Hasc].
        apply (fun H1 H2 => Hhd y H1 H2 c r' eq_refl); [lia|].
        intros c0 r0 ->. apply Hl.
      * intros x Hx Hxl c r0 Heq. injection Heq as <- _.
        apply (Hxl y r). reflexivity.
    + split; [split; [exact Hge | exact Hl]|].
      intros x Hx _ c r0 Heq. injection Heq as <- _. exact Hx.
Qed.

(** The sorted list is in ascending order of the addresses. *)
Lemma list_sort_ascending : forall l, ascending (list_sort l).
Proof.
  induction l as [|d r IH]; [exact I|].
  cbn [list_sort]. apply sort_insert_head. exact IH.
Qed.

(** The sort is stable: the extents that start at one address keep the
    order that they have in the input. *)
Lemma sort_insert_stable :
  forall a d l,
    filter (fun x => address x =? a) (sort_insert d l)
    = filter (fun x => address x =? a) (d :: l).
Proof.
  intros a d. induction l as [|y r IH]; [reflexivity|].
  cbn [sort_insert]. unfold DS.lt.
  destruct (Z.ltb_spec (address y) (address d)) as [Hlt|Hge]; [|reflexivity].
  cbn [filter] in *. rewrite IH.
  destruct (Z.eqb_spec (address d) a) as [Hd|Hd]; [|reflexivity].
  destruct (Z.eqb_spec (address y) a); [lia | reflexivity].
Qed.

Lemma list_sort_stable :
  forall a l,
    filter (fun x => address x =? a) (list_sort l)
    = filter (fun x => address x =? a) l.
Proof.
  intros a. induction l as [|d r IH]; [reflexivity|].
  cbn [list_sort]. rewrite sort_insert_stable. cbn [filter].
  rewrite IH. reflexivity.
Qed.

Lemma sort_insert_permutation :
  forall d l, Permutation (d :: l) (sort_insert d l).
Proof.
  intros d. induction l as [|y r IH]; [apply Permutation_refl|].
  cbn [sort_insert]. destruct (DS.lt y d); [|apply Permutation_refl].
  eapply perm_trans; [apply perm_swap|]. apply perm_skip. exact IH.
Qed.

Lemma list_sort_permutation : forall l, Permutation l (list_sort l).
Proof.
  induction l as [|d r IH]; [constructor|].
  cbn [list_sort]. eapply perm_trans; [|apply sort_insert_permutation].
  apply perm_skip. exact IH.
Qed.

(** A list in ascending order is sorted already. *)
Lemma list_sort_ascending_id : forall l, ascending l -> list_sort l = l.
Proof.
  induction l as [|d r IH]; intros Hl; [reflexivity|].
  cbn [list_sort].
  assert (Hr : ascending r) by (destruct r; [exact I | apply Hl]).
  rewrite IH by exact Hr.
  destruct r as [|c r']; [reflexivity|].
  cbn [sort_insert]. unfold DS.lt.
  destruct Hl as [Hle _].
  destruct (Z.ltb_spec (address c) (address d)); [lia | reflexivity].
Qed.

(** ** Reconciliation is a fixed point *)

Lemma synthetic_neq :
  forall n m, synthetic n = false -> synthetic m = true -> (n =? m)%string = false.
Proof.
  intros n m Hn Hm. destruct (String.eqb_spec n m) as [->|]; [|reflexivity].
  congruence.
Qed.

Lemma inter_synthetic :
  forall mem previous current, synthetic (name (inter mem previous current)) = true.
Proof.
  intros mem previous current. unfold inter, DS.range. cbn [name].
  destruct (IsZero mem (DS.end_ previous) (address current)); reflexivity.
Qed.

(** The merge test reads the name and the address of [current] only. *)
Lemma merge_test_second :
  forall mem p c c',
    name c' = name c -> address c' = address c ->
    merge_test mem p c' = merge_test mem p c.
Proof. intros mem p c c' Hn Ha. unfold merge_test. rewrite Hn, Ha. reflexivity. Qed.



Lemma merge_in_range :
  forall previous current,
    in_range previous -> in_range current ->
    address previous <= address current ->
    in_range (merge previous current).
Proof.
  intros previous current Hp Hc Hle.
  pose proof (end_in_range current Hc) as Hend.
  destruct Hp as (Hpa & Hps & Hpe). destruct Hc as (Hca & Hcs & Hce).
  unfold in_range, merge. cbn [address size].
  rewrite Hend, uintptr_small by lia. lia.
Qed.

Lemma inter_in_range :
  forall mem previous current,
    in_range current ->
    DS.end_ previous < address current ->
    in_range (inter mem previous current)
    /\ address (inter mem previous current) = DS.end_ previous
    /\ DS.end_ (inter mem previous current) = address current.
Proof.
  intros mem previous current Hc Hgap.
  destruct Hc as (Hca & Hcs & Hce).
  pose proof (uintptr_range (address previous + size previous)) as Hr.
  fold (DS.end_ previous) in Hr.
  rewrite inter_covers by lia.
  assert (Hin : in_range
                  {| name := if IsZero mem (DS.end_ previous) (address current)
                             then "Padding" else "Unreferenced";
                     address := DS.end_ previous;
                     size := address current - DS.end_ previous |}).
  { unfold in_range. cbn [address size]. lia. }
  split; [exact Hin | split; [reflexivity|]].
  rewrite end_in_range by exact Hin. cbn [address size]. lia.
Qed.

Section Reconciled.

Variable mem : Memory.

(** On a settled list the loop changes nothing. *)
Lemma scan_settled :
  forall rest previous fuel,
    settled mem (previous :: rest) ->
    (List.length rest < fuel)%nat ->
    scan mem fuel previous rest = Some (previous :: rest).
Proof.
  induction rest as [|current after IH]; intros previous fuel Hs Hf;
    (destruct fuel as [|fuel]; [cbn in Hf; lia|]).
  - reflexivity.
  - destruct Hs as (Ht & Hg & Hs).
    apply Z.ltb_ge in Hg.
    rewrite scan_advance by assumption.
    rewrite IH; [reflexivity | exact Hs | cbn in Hf; lia].
Qed.

(** The loop ends on a list of extents that are in the address space, in
    ascending order and named by the program, and its result is settled. *)
Lemma scan_reconciles :
  forall rest previous fuel,
    in_range previous ->
    Forall in_range rest ->
    ascending (previous :: rest) ->
    synthetic (name previous) = false ->
    Forall (fun d => synthetic (name d) = false) rest ->
    (2 * List.length rest + 1 <= fuel)%nat ->
    exists h tl,
      scan mem fuel previous rest = Some (h :: tl)
      /\ name h = name previous
      /\ address h = address previous
      /\ Forall in_range (h :: tl)
      /\ ascending (h :: tl)
      /\ settled mem (h :: tl).
Proof.
  induction rest as [|current after IH];
    intros previous fuel Hp Hrest Hasc Hsyn Hnames Hfuel;
    (destruct fuel as [|fuel]; [lia|]).
  - exists previous, []. repeat split. constructor; [exact Hp | constructor].
  - inversion Hrest as [|? ? Hc Hafter]; subst.
    inversion Hnames as [|? ? Hcsyn Hasyn]; subst.
    destruct Hasc as [Hle Hasc].
    cbn [List.length] in Hfuel.
    destruct (merge_test mem previous current) eqn:Ht.
    + rewrite scan_merge by exact Ht.
      destruct (IH (merge previous current) fuel) as (h & tl & Hscan & Hn & Ha & Hin & Has & Hse).
      * apply merge_in_range; assumption.
      * exact Hafter.
      * destruct after as [|c2 r2]; [exact I|].
        destruct Hasc as [Hle2 Hasc2]. split; [cbn [merge address]; lia | exact Hasc2].
      * exact Hsyn.
      * exact Hasyn.
      * lia.
      * exists h, tl. repeat split; assumption.
    + destruct (Z.ltb_spec (DS.end_ previous) (address current)) as [Hgap|Hnogap].
      * rewrite scan_gap by assumption.
        destruct fuel as [|fuel]; [lia|].
        destruct (inter_in_range mem previous current Hc Hgap) as (Hiin & Hia & Hie).
        pose proof (inter_synthetic mem previous current) as Hisyn.
        assert (Hti : merge_test mem (inter mem previous current) current = false).
        { unfold merge_test.
          rewrite String.eqb_sym, (synthetic_neq _ _ Hcsyn Hisyn). reflexivity. }
        rewrite scan_advance by (assumption || lia).
        destruct (IH current fuel) as (h & tl & Hscan & Hn & Ha & Hin & Has & Hse);
          try assumption; [lia|].
        rewrite Hscan. cbn [option_map].
        exists previous, (inter mem previous current :: h :: tl).
        pose proof (end_in_range previous Hp) as Hpend.
        destruct Hp as (Hpa & Hps & Hpe).
        repeat split.
        -- constructor; [unfold in_range; lia|].
           constructor; [exact Hiin | exact Hin].
        -- rewrite Hia. lia.
        -- rewrite Hia, Ha. lia.
        -- exact Has.
        -- unfold merge_test.
           rewrite (synthetic_neq _ _ Hsyn Hisyn). reflexivity.
        -- apply Z.ltb_ge. rewrite Hia. lia.
        -- rewrite (merge_test_second mem _ current h Hn Ha). exact Hti.
        -- apply Z.ltb_ge. rewrite Hie, Ha. lia.
        -- exact Hse.
      * rewrite scan_advance by assumption.
        destruct (IH current fuel) as (h & tl & Hscan & Hn & Ha & Hin & Has & Hse);
          try assumption; [lia|].
        rewrite Hscan. cbn [option_map].
        exists previous, (h :: tl).
        repeat split.
        -- constructor; assumption.
        -- rewrite Ha. exact Hle.
        -- exact Has.
        -- rewrite (merge_test_second mem _ current h Hn Ha). exact Ht.
        -- apply Z.ltb_ge. rewrite Ha. exact Hnogap.
        -- exact Hse.
Qed.

(** The loop ends on every list of extents that are in the address space
    and in ascending order, whatever their names. *)
Lemma scan_terminates :
  forall rest previous fuel,
    in_range previous ->
    Forall in_range rest ->
    ascending (previous :: rest) ->
    (2 * List.length rest + 1 <= fuel)%nat ->
    exists out, scan mem fuel previous rest = Some out.
Proof.
  induction rest as [|current after IH]; intros previous fuel Hp Hrest Hasc Hfuel;
    (destruct fuel as [|fuel]; [lia|]).
  - exists [previous]. reflexivity.
  - inversion Hrest as [|? ? Hc Hafter]; subst.
    destruct Hasc as [Hle Hasc].
    cbn [List.length] in Hfuel.
    assert (Hmerged :
              forall p, in_range p -> address p <= address current ->
                        in_range (merge p current)
                        /\ ascending (merge p current :: after)).
    { intros p Hpin Hple. split; [apply merge_in_range; assumption|].
      destruct after as [|c2 r2]; [exact I|].
      destruct Hasc as [Hle2 Hasc2].
      split; [cbn [merge address]; lia | exact Hasc2]. }
    destruct (merge_test mem previous current) eqn:Ht.
    + rewrite scan_merge by exact Ht.
      destruct (Hmerged previous Hp Hle) as [Hin Has].
      apply IH; [exact Hin | exact Hafter | exact Has | lia].
    + destruct (Z.ltb_spec (DS.end_ previous) (address current)) as [Hgap|Hnogap].
      * rewrite scan_gap by assumption.
        destruct fuel as [|fuel]; [lia|].
        destruct (inter_in_range mem previous current Hc Hgap) as (Hiin & Hia & Hie).
        destruct (merge_test mem (inter mem previous current) current) eqn:Hti.
        -- rewrite scan_merge by exact Hti.
           destruct (Hmerged (inter mem previous current) Hiin) as [Hin Has];
             [rewrite Hia; lia|].
           destruct (IH (merge (inter mem previous current) current) fuel)
             as [out Hout]; [exact Hin | exact Hafter | exact Has | lia |].
           rewrite Hout. eexists. reflexivity.
        -- rewrite scan_advance by (assumption || lia).
           destruct (IH current fuel) as [out Hout];
             [exact Hc | exact Hafter | exact Hasc | lia |].
           rewrite Hout. eexists. reflexivity.
      * rewrite scan_advance by assumption.
        destruct (IH current fuel) as [out Hout];
          [exact Hc | exact Hafter | exact Hasc | lia |].
        rewrite Hout. eexists. reflexivity.
Qed.

End Reconciled.

(** [sortDataStructures] ends on every list of extents that are in the
    address space. *)
Lemma sortDataStructures_terminates :
  forall mem alldata,
    Forall in_range alldata -> exists out, sortDataStructures mem alldata = Some out.
Proof.
  intros mem alldata Hin.
  pose proof (list_sort_ascending alldata) as Hasc.
  pose proof (Permutation_Forall (list_sort_permutation alldata) Hin) as Hin'.
  unfold sortDataStructures.
  destruct (list_sort alldata) as [|previous rest]; [eexists; reflexivity|].
  inversion Hin'; subst.
  apply scan_terminates; [assumption | assumption | exact Hasc | lia].
Qed.

(** ** The pairs of neighbours *)

Section Pairs.

Variable mem : Memory.




End Pairs.



(** On an extent named Padding that is followed by a gap of zeros: the
    first pass names the gap Padding too and leaves two neighbours of that
    name; the second pass merges them. *)
Lemma sortDataStructures_not_idempotent :
  sortDataStructures (filled 0) [extent "X" 20 10; extent "Padding" 0 10]
  = Some [extent "Padding" 0 10; extent "Padding" 10 10; extent "X" 20 10]
  /\ sortDataStructures (filled 0)
       [extent "Padding" 0 10; extent "Padding" 10 10; extent "X" 20 10]
     = Some [extent "Padding" 0 20; extent "X" 20 10].
Proof. split; reflexivity. Qed.

(** C5, amended. On a list of extents that lie in the address space and
    of which none is named Padding or Unreferenced, as is every list that
    [generate] builds, [sortDataStructures] ends, and a second pass over
    its result leaves the result unchanged. The result is a function of the
    list and of the memory image; the sort that it starts with puts the
    extents in ascending order of their addresses, changes nothing else,
    and keeps the input order of the extents that start at one address. *)
Theorem sortDataStructures_idempotent :
  forall (mem : Memory) (alldata : list DataStructure),
    Forall in_range alldata ->
    Forall (fun d => synthetic (name d) = false) alldata ->
    (exists out,
        sortDataStructures mem alldata = Some out
        /\ sortDataStructures mem out = Some out)
    /\ ascending (list_sort alldata)
    /\ Permutation alldata (list_sort alldata)
    /\ (forall a,
          filter (fun x => address x =? a) (list_sort alldata)
          = filter (fun x => address x =? a) alldata).
Proof.
  intros mem alldata Hin Hnames.
  split; [| split; [apply list_sort_ascending
                   | split; [apply list_sort_permutation
                            | intros a; apply list_sort_stable]]].
  pose proof (list_sort_ascending alldata) as Hasc.
  pose proof (list_sort_permutation alldata) as Hperm.
  pose proof (Permutation_Forall Hperm Hin) as Hin'.
  pose proof (Permutation_Forall Hperm Hnames) as Hnames'.
  unfold sortDataStructures at 1.
  destruct (list_sort alldata) as [|previous rest].
  - exists []. split; reflexivity.
  - inversion Hin' as [|? ? Hp Hrest]; subst.
    inversion Hnames' as [|? ? Hsyn Hnrest]; subst.
    destruct (scan_reconciles mem rest previous (2 * List.length rest + 1)
                Hp Hrest Hasc Hsyn Hnrest (le_n _))
      as (h & tl & Hscan & _ & _ & _ & Has & Hse).
    exists (h :: tl). split; [exact Hscan|].
    unfold sortDataStructures. rewrite list_sort_ascending_id by exact Has.
    apply scan_settled; [exact Hse | lia].
Qed.

(** Two strings named S around a gap of zeros, declared after the table T
    that follows them. *)
Lemma sortDataStructures_idempotent_run :
  exists out,
    sortDataStructures (filled 0)
      [extent "T" 50 1; extent "S" 20 10; extent "S" 0 10] = Some out
    /\ sortDataStructures (filled 0) out = Some out.
Proof.
  apply (sortDataStructures_idempotent (filled 0)
           [extent "T" 50 1; extent "S" 20 10; extent "S" 0 10]).
  - repeat constructor; cbn; (lia || (intros Hc; discriminate Hc)).
  - repeat constructor.
Defined.

(** * Further properties of the formatters and of the extents *)

(** ** Extents and their ends *)

(** X1. [setEnd] and [end] are inverse to each other on 64-bit values, also
    when the new end is below the address and the size wraps: the end of
    an extent after [setEnd(e)] is [e], the end of [DataStructure(n, a, e)]
    is [e], and [setEnd(end())] gives the extent back. *)
Theorem setEnd_end_round_trip :
  forall (d : DataStructure) (e : Z),
    0 <= e < 2 ^ 64 ->
    0 <= size d < 2 ^ 64 ->
    DS.end_ (DS.setEnd d e) = e
    /\ DS.end_ (DS.range (name d) (address d) e) = e
    /\ DS.setEnd d (DS.end_ d) = d.
Proof.
  intros d e He Hs.
  assert (Hend : forall a, uintptr (a + uintptr (e - a)) = e).
  { intros a. unfold uintptr. rewrite Zplus_mod_idemp_r.
    replace (a + (e - a)) with e by lia. apply Z.mod_small. exact He. }
  split; [| split].
  - unfold DS.end_, DS.setEnd. cbn [address size]. apply Hend.
  - unfold DS.end_, DS.range. cbn [address size]. apply Hend.
  - destruct d as [n a s]. unfold DS.setEnd, DS.end_. cbn [name address size] in *.
    f_equal. unfold uintptr. rewrite Zminus_mod_idemp_l.
    replace (a + s - a) with s by lia. apply Z.mod_small. exact Hs.
Qed.

(** An extent that is set to end below its address. *)
Lemma setEnd_end_round_trip_run :
  DS.end_ (DS.setEnd (extent "S" 100 10) 40) = 40
  /\ size (DS.setEnd (extent "S" 100 10) 40) = 2 ^ 64 - 60.
Proof.
  split; [| reflexivity].
  apply (setEnd_end_round_trip (extent "S" 100 10) 40); cbn; lia.
Defined.

(** ** Lookup in a symbol table *)

Lemma map_find_cons :
  forall k e t,
    map_find k (e :: t) = if fst e =? k then Some (snd e) else map_find k t.
Proof.
  intros k e t. unfold map_find. cbn [find].
  destruct (fst e =? k); reflexivity.
Qed.

Lemma find_above :
  forall k t,
    Forall (fun k' => k < k') (keys t) -> map_find k t = None.
Proof.
  intros k. induction t as [|e r IH]; intros Hall; [reflexivity|].
  cbn [keys map] in Hall. inversion Hall; subst.
  rewrite map_find_cons.
  destruct (Z.eqb_spec (fst e) k); [lia|]. apply IH. assumption.
Qed.

Lemma sorted_keys_above :
  forall e r, Sorted Z.lt (keys (e :: r)) -> Forall (fun k' => fst e < k') (keys r).
Proof.
  intros e r Hs.
  apply Sorted_StronglySorted in Hs; [|intros x y z; apply Z.lt_trans].
  cbn [keys map] in Hs. inversion Hs; subst. assumption.
Qed.

(** A lookup after an insertion: the mapping that was there stays, a new
    key gets the inserted name. *)
Lemma map_find_insert :
  forall k e t,
    Sorted Z.lt (keys t) ->
    map_find k (map_insert e t)
    = match map_find k t with
      | Some v => Some v
      | None => if fst e =? k then Some (snd e) else None
      end.
Proof.
  intros k e. induction t as [|e' r IH]; intros Hs.
  - cbn [map_insert]. rewrite map_find_cons. reflexivity.
  - cbn [map_insert].
    pose proof (sorted_keys_above e' r Hs) as Habove.
    assert (Hr : Sorted Z.lt (keys r))
      by (cbn [keys map] in Hs; inversion Hs; assumption).
    destruct (Z.ltb_spec (fst e) (fst e')) as [Hlt|Hge].
    + rewrite map_find_cons.
      destruct (Z.eqb_spec (fst e) k) as [Hk|Hk].
      * rewrite find_above; [reflexivity|].
        cbn [keys map]. constructor; [lia|].
        eapply Forall_impl; [|exact Habove]. cbn. intros; lia.
      * destruct (map_find k (e' :: r)); reflexivity.
    + destruct (Z.eqb_spec (fst e) (fst e')) as [Heq|Hne].
      * rewrite map_find_cons. rewrite Heq.
        destruct (Z.eqb_spec (fst e') k); [reflexivity|].
        destruct (map_find k r); reflexivity.
      * rewrite !map_find_cons.
        destruct (Z.eqb_spec (fst e') k); [reflexivity|].
        apply IH. exact Hr.
Qed.

Lemma map_find_fold_insert :
  forall k decl t,
    Sorted Z.lt (keys t) ->
    map_find k (fold_left (fun t e => map_insert e t) decl t)
    = match map_find k t with
      | Some v => Some v
      | None => map_find k decl
      end.
Proof.
  intros k. induction decl as [|e decl IH]; intros t Hs; cbn [fold_left].
  - destruct (map_find k t); reflexivity.
  - rewrite IH by (apply map_insert_sorted; exact Hs).
    rewrite map_find_insert by exact Hs.
    rewrite (map_find_cons k e decl).
    destruct (map_find k t); [reflexivity|].
    destruct (fst e =? k); reflexivity.
Qed.

Lemma map_find_SymbolTable_of :
  forall value decl, map_find value (SymbolTable_of decl) = map_find value decl.
Proof.
  intros value decl. unfold SymbolTable_of.
  rewrite map_find_fold_insert by constructor. reflexivity.
Qed.

(** X2. A table gives to a key the name of its first declaration, whatever
    the order of the declarations, and [symbol] returns this name; a value
    that no declaration has as its key is formatted as a plain number. *)
Theorem symbol_first_declared :
  forall opt decl value hex_digits,
    num_only opt = false ->
    map_find value (SymbolTable_of decl) = map_find value decl
    /\ symbol opt (SymbolTable_of decl) value hex_digits
       = match find (fun e => fst e =? value) decl with
         | Some e => snd e
         | None => integer value hex_digits
         end.
Proof.
  intros opt decl value hex_digits Hopt.
  pose proof (map_find_SymbolTable_of value decl) as Hfind.
  split; [exact Hfind|].
  unfold symbol. rewrite Hopt. cbn [negb]. rewrite Hfind.
  unfold map_find. destruct (find (fun e => fst e =? value) decl); reflexivity.
Qed.

(** A key declared twice, after a greater key. *)
Lemma symbol_first_declared_run :
  symbol (opt_of false) (SymbolTable_of [(7, "G"); (3, "A"); (3, "B")]) 3 0 = "A"
  /\ symbol (opt_of false) (SymbolTable_of [(7, "G"); (3, "A"); (3, "B")]) 5 2
     = "0x05".
Proof.
  split.
  - apply (symbol_first_declared (opt_of false) [(7, "G"); (3, "A"); (3, "B")]
             3 0 eq_refl).
  - apply (symbol_first_declared (opt_of false) [(7, "G"); (3, "A"); (3, "B")]
             5 2 eq_refl).
Defined.

(** ** The bits that bitMask accounts for *)






(** ** Attributes that are single bits *)

Lemma testbit_fold_lor :
  forall n ks bits,
    Z.testbit (fold_left Z.lor ks bits) n
    = Z.testbit bits n || existsb (fun k => Z.testbit k n) ks.
Proof.
  intros n. induction ks as [|k ks IH]; intros bits; cbn [fold_left existsb].
  - rewrite orb_false_r. reflexivity.
  - rewrite IH, Z.lor_spec, orb_assoc. reflexivity.
Qed.

Lemma all_attributes_keys :
  forall attrs, all_attributes attrs = fold_left Z.lor (keys attrs) 0.
Proof.
  intros attrs. unfold all_attributes, keys.
  generalize 0. induction attrs as [|sym r IH]; intros a; [reflexivity|].
  cbn [fold_left map]. apply IH.
Qed.

Lemma single_bit_contained :
  forall k value,
    single_bit k ->
    (Z.land value k = k <-> forall n, 0 <= n -> Z.testbit k n = true ->
                                      Z.testbit value n = true).
Proof.
  intros k value [m [Hm ->]]. split.
  - intros Hland n Hn Hbit.
    rewrite <- Hland, Z.land_spec in Hbit.
    apply andb_true_iff in Hbit as [Hv _]. exact Hv.
  - intros Hbits. apply Z.bits_inj'. intros n Hn.
    rewrite Z.land_spec.
    destruct (Z.testbit (2 ^ m) n) eqn:Hk; [|apply andb_false_r].
    rewrite (Hbits n Hn Hk). reflexivity.
Qed.

Lemma single_bit_nonzero : forall k, single_bit k -> k <> 0.
Proof. intros k [m [Hm ->]]. apply Z.pow_nonzero; lia. Qed.

(** With keys of one bit, masking the value by all attributes does not
    change the attributes that match. *)
Lemma flags_matched_masked :
  forall attrs value,
    Forall single_bit (keys attrs) ->
    flags_matched attrs (Z.land value (all_attributes attrs))
    = flags_matched attrs value.
Proof.
  intros attrs value Hall. unfold flags_matched.
  apply filter_ext_in. intros sym Hin.
  assert (Hk : In (fst sym) (keys attrs)) by (apply in_map; exact Hin).
  rewrite Forall_forall in Hall. specialize (Hall _ Hk).
  f_equal.
  assert (Hsub : Z.land (all_attributes attrs) (fst sym) = fst sym).
  { apply Z.bits_inj'. intros n Hn. rewrite Z.land_spec.
    destruct (Z.testbit (fst sym) n) eqn:Hbit; [|apply andb_false_r].
    rewrite all_attributes_keys, testbit_fold_lor, andb_true_r.
    apply orb_true_iff. right. apply existsb_exists.
    exists (fst sym). split; assumption. }
  rewrite <- Z.land_assoc, Hsub. reflexivity.
Qed.

(** With keys of one bit, the attributes of a value leave no bit over. *)
Lemma residual_single_bits :
  forall attrs value,
    Forall single_bit (keys attrs) ->
    residual attrs (Z.land value (all_attributes attrs)) = 0.
Proof.
  intros attrs value Hall. unfold residual.
  apply Z.bits_inj'. intros n Hn.
  rewrite Z.bits_0, Z.land_spec, Z.lnot_spec by exact Hn.
  destruct (Z.testbit (Z.land value (all_attributes attrs)) n) eqn:Hv;
    [|reflexivity].
  cbn [andb]. apply negb_false_iff.
  pose proof Hv as Hv'.
  rewrite Z.land_spec in Hv'. apply andb_true_iff in Hv' as [_ Ha].
  rewrite all_attributes_keys, testbit_fold_lor, Z.bits_0 in Ha.
  cbn [orb] in Ha. apply existsb_exists in Ha as [k [Hk Hbit]].
  apply in_map_iff in Hk as [sym [Hfst Hin]]. subst k.
  assert (Hsingle : single_bit (fst sym)).
  { rewrite Forall_forall in Hall. apply Hall. apply in_map. exact Hin. }
  rewrite testbit_fold_lor. apply orb_true_iff. right.
  apply existsb_exists. exists (fst sym). split; [|exact Hbit].
  apply in_map. apply filter_In. split; [exact Hin|].
  apply andb_true_iff. split.
  - apply negb_true_iff, Z.eqb_neq, single_bit_nonzero, Hsingle.
  - apply Z.eqb_eq. apply single_bit_contained; [exact Hsingle|].
    intros m Hm Hkm.
    destruct Hsingle as [j [Hj Hpow]]. rewrite Hpow in Hbit, Hkm.
    rewrite Z.pow2_bits_eqb in Hbit, Hkm by exact Hj.
    apply Z.eqb_eq in Hbit, Hkm. subst. exact Hv.
Qed.

(** X4. When every key of the attribute table is a single bit, [attributes]
    returns the symbol of the value without its attribute bits, followed,
    if the value has attribute bits, by the names of the attributes that
    are set in the value, in the order of the table, all joined by
    [" | "]: no bit is left to be printed as a number. *)
Theorem attributes_single_bits :
  forall opt symbols attrs value hex_digits,
    num_only opt = false ->
    Forall single_bit (keys attrs) ->
    attributes opt symbols attrs value hex_digits
    = symbol opt symbols (Z.land value (Z.lnot (all_attributes attrs))) hex_digits
      ++ (if Z.land value (all_attributes attrs) =? 0 then EmptyString
          else " | " ++ join_terms (map snd (flags_matched attrs value))).
Proof.
  intros opt symbols attrs value hex_digits Hopt Hall.
  unfold attributes. rewrite Hopt. cbn [negb]. fold (all_attributes attrs).
  destruct (Z.eqb_spec (Z.land value (all_attributes attrs)) 0) as [Hz|Hnz].
  { cbn [negb]. symmetry. apply append_nil_r. }
  cbn [negb]. f_equal. f_equal.
  assert (Hm : flags_matched attrs (Z.land value (all_attributes attrs)) <> []).
  { intros Hnil. apply Hnz.
    pose proof (residual_single_bits attrs value Hall) as Hres.
    unfold residual in Hres. rewrite Hnil in Hres. cbn in Hres.
    rewrite Z.land_m1_r in Hres. exact Hres. }
  rewrite bitMask_matched by assumption.
  unfold bitMask_terms.
  rewrite residual_single_bits by exact Hall. cbn [Z.eqb].
  rewrite app_nil_r, flags_matched_masked by exact Hall. reflexivity.
Qed.

(** The scan code flags KBDEXT and KBDMULTIVK on the key 0x90. *)
Lemma attributes_single_bits_run :
  attributes (opt_of false) (SymbolTable_of [(144, "VK_NUMLOCK")])
    (SymbolTable_of [(256, "KBDEXT"); (512, "KBDMULTIVK"); (1024, "KBDSPECIAL")])
    912 4
  = "VK_NUMLOCK | KBDEXT | KBDMULTIVK".
Proof.
  rewrite attributes_single_bits; [reflexivity | reflexivity |].
  repeat constructor.
  - exists 8. split; [lia | reflexivity].
  - exists 9. split; [lia | reflexivity].
  - exists 10. split; [lia | reflexivity].
Defined.

(** ** Plain numbers can be read back *)

Lemma dec_digits_inj :
  forall d d', Fmt.dec_digits d = Fmt.dec_digits d' -> d = d'.
Proof.
  induction d as [|d IH|d IH|d IH|d IH|d IH|d IH|d IH|d IH|d IH|d IH];
    intros [|d'|d'|d'|d'|d'|d'|d'|d'|d'|d'] Heq; cbn in Heq;
    try discriminate Heq; try reflexivity;
    injection Heq as Heq; f_equal; apply IH; exact Heq.
Qed.

Lemma hex_digits_inj :
  forall upper d d', Fmt.hex_digits upper d = Fmt.hex_digits upper d' -> d = d'.
Proof.
  intros upper.
  induction d as [|d IH|d IH|d IH|d IH|d IH|d IH|d IH|d IH|d IH|d IH
                  |d IH|d IH|d IH|d IH|d IH|d IH];
    intros [|d'|d'|d'|d'|d'|d'|d'|d'|d'|d'|d'|d'|d'|d'|d'|d'] Heq;
    cbn in Heq; destruct upper;
    try discriminate Heq; try reflexivity;
    injection Heq as Heq; f_equal; apply IH; exact Heq.
Qed.

Lemma dec_of_N_inj : forall n n', Fmt.dec_of_N n = Fmt.dec_of_N n' -> n = n'.
Proof.
  intros n n' Heq. apply dec_digits_inj in Heq.
  rewrite <- (DecimalN.Unsigned.of_to n), <- (DecimalN.Unsigned.of_to n').
  rewrite Heq. reflexivity.
Qed.

Lemma dec_of_N_head :
  forall n, exists c s, Fmt.dec_of_N n = String c s /\ is_digit c = true.
Proof.
  intros [|p]; [exists "0"%char, EmptyString; split; reflexivity|].
  unfold Fmt.dec_of_N. simpl N.to_uint.
  pose proof (DecimalPos.Unsigned.to_uint_nonnil p) as Hnil.
  destruct (Pos.to_uint p); [congruence | ..]; cbn;
    eexists; eexists; (split; [reflexivity | reflexivity]).
Qed.

(** Zeros in front of hexadecimal digits are zero digits. *)
Lemma zeros_hex_digits :
  forall upper k d,
    Fmt.repeat_char "0" k ++ Fmt.hex_digits upper d
    = Fmt.hex_digits upper (Nat.iter k Hexadecimal.D0 d).
Proof.
  intros upper. induction k as [|k IH]; intros d; [reflexivity|].
  cbn [Fmt.repeat_char append Nat.iter nat_rect]. rewrite IH. reflexivity.
Qed.

Lemma of_hex_zeros :
  forall k d, N.of_hex_uint (Nat.iter k Hexadecimal.D0 d) = N.of_hex_uint d.
Proof.
  induction k as [|k IH]; intros d; [reflexivity|].
  rewrite Nat.iter_succ.
  change (N.of_hex_uint (Hexadecimal.D0 (Nat.iter k Hexadecimal.D0 d)))
    with (N.of_hex_uint (Nat.iter k Hexadecimal.D0 d)).
  apply IH.
Qed.

Lemma field0_hex_inj :
  forall upper w n n',
    0 <= w ->
    Fmt.field0 w EmptyString (Fmt.hex_of_N upper n)
    = Fmt.field0 w EmptyString (Fmt.hex_of_N upper n') ->
    n = n'.
Proof.
  intros upper w n n' Hw Heq. unfold Fmt.field0, Fmt.hex_of_N in Heq.
  destruct (Z.leb_spec 0 w); [|lia].
  cbn [append] in Heq. rewrite !zeros_hex_digits in Heq.
  apply hex_digits_inj in Heq.
  apply (f_equal N.of_hex_uint) in Heq.
  rewrite !of_hex_zeros, !HexadecimalN.Unsigned.of_to in Heq. exact Heq.
Qed.

Lemma lld_inj : forall v v', Fmt.lld v = Fmt.lld v' -> v = v'.
Proof.
  intros v v' Heq. unfold Fmt.lld, Fmt.sign_of in Heq.
  destruct (dec_of_N_head (Z.abs_N v)) as (c & s & Hc & Hd).
  destruct (dec_of_N_head (Z.abs_N v')) as (c' & s' & Hc' & Hd').
  destruct (Z.ltb_spec v 0), (Z.ltb_spec v' 0); cbn [append] in Heq.
  - injection Heq as Heq. apply dec_of_N_inj in Heq. lia.
  - rewrite Hc' in Heq. injection Heq as <- _. discriminate Hd'.
  - rewrite Hc in Heq. injection Heq as -> _. discriminate Hd.
  - apply dec_of_N_inj in Heq. lia.
Qed.

(** X5. [integer] loses nothing of a 64-bit value: with the same number of
    hexadecimal digits, two values that are formatted alike are equal. *)
Theorem integer_injective :
  forall hex_digits value value',
    - 2 ^ 63 <= value < 2 ^ 63 ->
    - 2 ^ 63 <= value' < 2 ^ 63 ->
    integer value hex_digits = integer value' hex_digits ->
    value = value'.
Proof.
  intros hex_digits value value' Hv Hv' Heq. unfold integer in Heq.
  destruct (Z.leb_spec hex_digits 0) as [Hdec|Hhex].
  - apply lld_inj. exact Heq.
  - unfold Format_0x_0star_llX, Fmt.llX_0star in Heq. cbn [append] in Heq.
    injection Heq as Heq.
    apply field0_hex_inj in Heq; [|lia].
    unfold Fmt.unsigned in Heq.
    apply (f_equal Z.of_N) in Heq.
    rewrite !Z2N.id in Heq by (apply Z.mod_pos_bound; reflexivity).
    change (2 ^ 64) with 18446744073709551616 in Heq.
    change (2 ^ 63) with 9223372036854775808 in Hv, Hv'.
    Z.div_mod_to_equations. lia.
Qed.

(** The value 255, written in two ways, with two hexadecimal digits. *)
Lemma integer_injective_run :
  integer 255 2 = "0xFF"
  /\ integer (-1) 2 = "0xFFFFFFFFFFFFFFFF"
  /\ 255 = 256 - 1.
Proof.
  split; [reflexivity | split; [reflexivity|]].
  apply (integer_injective 2 255 (256 - 1)); [cbn; lia | cbn; lia | reflexivity].
Defined.

(** ** Characters can be read back *)

Lemma map_find_declared :
  forall value decl name,
    map_find value decl = Some name -> In (value, name) decl.
Proof.
  intros value decl name Hfind. unfold map_find in Hfind.
  destruct (find (fun e => fst e =? value) decl) as [[k n]|] eqn:Hf;
    [|discriminate].
  apply find_some in Hf as [Hin Hk]. cbn in Hk. apply Z.eqb_eq in Hk.
  injection Hfind as <-. subst k. exact Hin.
Qed.

Lemma Format_0x_04X_inj :
  forall v v',
    0 <= v < 2 ^ 32 -> 0 <= v' < 2 ^ 32 ->
    Format_0x_04X v = Format_0x_04X v' -> v = v'.
Proof.
  intros v v' Hv Hv' Heq. unfold Format_0x_04X, Fmt.X_0 in Heq.
  cbn [append] in Heq. injection Heq as Heq.
  apply field0_hex_inj in Heq; [|lia].
  unfold Fmt.unsigned in Heq. rewrite !Z.mod_small in Heq by assumption.
  lia.
Qed.

Lemma char_string_inj :
  forall v v',
    0 <= v < 256 -> 0 <= v' < 256 -> char_string v = char_string v' -> v = v'.
Proof.
  intros v v' Hv Hv' Heq. unfold char_string in Heq. injection Heq as Heq.
  apply (f_equal N_of_ascii) in Heq.
  rewrite !N_ascii_embedding in Heq by lia. lia.
Qed.

(** The four forms of the text of a character. *)
Lemma wchar_text_cases :
  forall H opt value descs,
    (num_only opt = false
     /\ In (value, fst (wchar H opt value descs)) (wchar_symbols_decl H))
    \/ (num_only opt = true /\ (value = 39 \/ value = 92)
        /\ fst (wchar H opt value descs)
           = "L'" ++ bslash ++ char_string value ++ "'")
    \/ (32 <= value < 127
        /\ fst (wchar H opt value descs) = "L'" ++ char_string value ++ "'")
    \/ fst (wchar H opt value descs) = Format_0x_04X value.
Proof.
  intros H opt value descs. unfold wchar.
  destruct (num_only opt) eqn:Hopt; cbn [negb].
  - destruct (Z.eqb_spec value 39) as [->|H39];
      [right; left; repeat split; left; reflexivity|].
    destruct (Z.eqb_spec value 92) as [->|H92];
      [right; left; repeat split; right; reflexivity|].
    cbn [orb].
    destruct (Z.leb_spec 32 value); destruct (Z.ltb_spec value 127); cbn [andb fst];
      try (right; right; right; reflexivity).
    right; right; left. split; [lia | reflexivity].
  - change (wchar_symbols H) with (SymbolTable_of (wchar_symbols_decl H)).
    rewrite map_find_SymbolTable_of.
    destruct (map_find value (wchar_symbols_decl H)) as [name|] eqn:Hf.
    + left. split; [reflexivity|]. apply map_find_declared. exact Hf.
    + assert (H39 : value <> 39) by (intros ->; discriminate Hf).
      assert (H92 : value <> 92) by (intros ->; discriminate Hf).
      destruct (Z.eqb_spec value 39); [contradiction|].
      destruct (Z.eqb_spec value 92); [contradiction|].
      cbn [orb].
      destruct (Z.leb_spec 32 value); destruct (Z.ltb_spec value 127);
        cbn [andb];
        try (right; right; right;
             destruct (map_find value wchar_descriptions); reflexivity).
      right; right; left. split; [lia | reflexivity].
Qed.

(** X6. [wchar] gives different texts to different 16-bit characters, in
    both modes and whatever the values of WCH_NONE, WCH_DEAD and WCH_LGTR:
    the character can be read back from its text. *)
Theorem wchar_injective :
  forall H opt value value' descs descs',
    0 <= value < 2 ^ 16 ->
    0 <= value' < 2 ^ 16 ->
    fst (wchar H opt value descs) = fst (wchar H opt value' descs') ->
    value = value'.
Proof.
  intros H opt value value' descs descs' Hv Hv' Heq.
  assert (Hhex : forall v v', 0 <= v < 2 ^ 16 -> 0 <= v' < 2 ^ 16 ->
                              Format_0x_04X v = Format_0x_04X v' -> v = v').
  { intros v v' Hr Hr'. apply Format_0x_04X_inj;
      change (2 ^ 16) with 65536 in *; change (2 ^ 32) with 4294967296; lia. }
  destruct (wchar_text_cases H opt value descs)
    as [[Ho Hin]|[[Ho [Hq Ht]]|[[Hr Ht]|Ht]]];
    destruct (wchar_text_cases H opt value' descs')
      as [[Ho' Hin']|[[Ho' [Hq' Ht']]|[[Hr' Ht']|Ht']]].
  - (* symbol, symbol *)
    rewrite <- Heq in Hin'. cbn in Hin, Hin'.
    repeat match goal with
           | Hor : _ \/ _ |- _ => destruct Hor
           | Hf : False |- _ => contradiction
           end; congruence.
  - congruence.
  - (* symbol, literal *)
    rewrite Heq, Ht' in Hin. cbn in Hin.
    repeat match goal with
           | Hor : _ \/ _ |- _ => destruct Hor
           | Hf : False |- _ => contradiction
           end; congruence.
  - (* symbol, number *)
    rewrite Heq, Ht' in Hin. cbn in Hin.
    repeat match goal with
           | Hor : _ \/ _ |- _ => destruct Hor
           | Hf : False |- _ => contradiction
           end; congruence.
  - congruence.
  - (* escaped, escaped *)
    rewrite Ht, Ht' in Heq.
    destruct Hq as [-> | ->], Hq' as [-> | ->];
      try reflexivity; discriminate Heq.
  - (* escaped, literal *)
    rewrite Ht, Ht' in Heq. destruct Hq as [-> | ->]; cbn in Heq; congruence.
  - (* escaped, number *)
    rewrite Ht, Ht' in Heq. destruct Hq as [-> | ->]; discriminate Heq.
  - (* literal, symbol *)
    rewrite <- Heq, Ht in Hin'. cbn in Hin'.
    repeat match goal with
           | Hor : _ \/ _ |- _ => destruct Hor
           | Hf : False |- _ => contradiction
           end; congruence.
  - (* literal, escaped *)
    rewrite Ht, Ht' in Heq. destruct Hq' as [-> | ->]; cbn in Heq; congruence.
  - (* literal, literal *)
    rewrite Ht, Ht' in Heq. cbn [append] in Heq. injection Heq as Heq.
    apply char_string_inj; [lia | lia |].
    unfold char_string. rewrite Heq. reflexivity.
  - (* literal, number *)
    rewrite Ht, Ht' in Heq. discriminate Heq.
  - (* number, symbol *)
    rewrite <- Heq, Ht in Hin'. cbn in Hin'.
    repeat match goal with
           | Hor : _ \/ _ |- _ => destruct Hor
           | Hf : False |- _ => contradiction
           end; congruence.
  - (* number, escaped *)
    rewrite Ht, Ht' in Heq. destruct Hq' as [-> | ->]; discriminate Heq.
  - (* number, literal *)
    rewrite Ht, Ht' in Heq. discriminate Heq.
  - (* number, number *)
    rewrite Ht, Ht' in Heq. apply Hhex; assumption.
Qed.

(** The tab, the letter A and e acute have three different texts. *)
Lemma wchar_injective_run :
  fst (wchar sdk (opt_of false) 9 []) = "L'" ++ bslash ++ "t'"
  /\ fst (wchar sdk (opt_of false) 233 []) = "0x00E9"
  /\ 65 = 64 + 1.
Proof.
  split; [reflexivity | split; [reflexivity|]].
  apply (wchar_injective sdk (opt_of false) 65 (64 + 1) [] []);
    [cbn; lia | cbn; lia | reflexivity].
Defined.

(** ** Descriptions of characters *)

(** X7. [wchar] keeps the descriptions that it is given and adds at most
    one: the description of the character in the catalog, and only when
    the numeric-only mode is off and the text of the character is its
    number in four hexadecimal digits. *)
Theorem wchar_descriptions_added :
  forall H opt value descs,
    snd (wchar H opt value descs) = descs
    \/ exists dsc,
        snd (wchar H opt value descs) = (descs ++ [dsc])%list
        /\ map_find value wchar_descriptions = Some dsc
        /\ num_only opt = false
        /\ fst (wchar H opt value descs) = Format_0x_04X value.
Proof.
  intros H opt value descs. unfold wchar.
  destruct (if negb (num_only opt) then map_find value (wchar_symbols H) else None);
    [left; reflexivity|].
  destruct ((value =? 39) || (value =? 92)); [left; reflexivity|].
  destruct ((32 <=? value) && (value <? 127)); [left; reflexivity|].
  destruct (num_only opt); cbn [negb]; [left; reflexivity|].
  destruct (map_find value wchar_descriptions) as [dsc|]; [|left; reflexivity].
  right. exists dsc. repeat split.
Qed.

(** ** String literals *)

Lemma wstring_loop_stops :
  forall a b str, wstring_loop (a ++ 0 :: b)%list str = wstring_loop a str.
Proof.
  induction a as [|c a IH]; intros b str; [reflexivity|].
  cbn [app wstring_loop].
  destruct (c =? 0); [reflexivity|].
  destruct (map_find c wchar_literals); [apply IH|].
  destruct ((32 <=? c) && (c <? 127)); apply IH.
Qed.

(** X8. [wstring] stops at the first zero: the characters that follow it in
    memory have no part in the text. *)
Theorem wstring_stops_at_zero :
  forall a b, wstring (Some (a ++ 0 :: b)%list) = wstring (Some a).
Proof. intros a b. unfold wstring. rewrite wstring_loop_stops. reflexivity. Qed.

Lemma all_printable_app :
  forall s t, all_printable (s ++ t) = all_printable s && all_printable t.
Proof.
  induction s as [|c s IH]; intros t; cbn; [reflexivity|].
  rewrite IH, andb_assoc. reflexivity.
Qed.

Lemma hex_digits_printable :
  forall upper d, all_printable (Fmt.hex_digits upper d) = true.
Proof.
  intros upper. induction d; cbn [Fmt.hex_digits all_printable]; rewrite ?IHd;
    destruct upper; reflexivity.
Qed.

Lemma repeat_char_printable :
  forall c n, printable c = true -> all_printable (Fmt.repeat_char c n) = true.
Proof.
  intros c n Hc. induction n as [|n IH]; cbn; [reflexivity|].
  rewrite Hc, IH. reflexivity.
Qed.

Lemma Format_bsx_04x_printable :
  forall value, all_printable (Format_bsx_04x value) = true.
Proof.
  intros value. unfold Format_bsx_04x, Fmt.x_0, Fmt.field0, Fmt.hex_of_N.
  destruct (Z.leb_spec 0 (Z.of_nat 4)); [|lia].
  cbn [append all_printable].
  rewrite all_printable_app, hex_digits_printable, repeat_char_printable
    by reflexivity.
  reflexivity.
Qed.

Lemma char_string_printable :
  forall c, 32 <= c < 127 -> all_printable (char_string c) = true.
Proof.
  intros c Hc. unfold char_string. cbn [all_printable]. unfold printable.
  rewrite N_ascii_embedding by lia. rewrite andb_true_r.
  apply andb_true_iff. split; [apply N.leb_le | apply N.ltb_lt]; lia.
Qed.

Lemma wchar_literals_printable :
  forall c lit, map_find c wchar_literals = Some lit -> all_printable lit = true.
Proof.
  intros c lit Hfind. apply map_find_declared in Hfind.
  vm_compute in Hfind.
  repeat match goal with
         | Hor : _ \/ _ |- _ => destruct Hor
         | Hf : False |- _ => contradiction
         | Hp : (_, _) = (_, _) |- _ => injection Hp as _ <-
         end; reflexivity.
Qed.

Lemma wstring_loop_printable :
  forall chars str,
    all_printable str = true -> all_printable (wstring_loop chars str) = true.
Proof.
  induction chars as [|c chars IH]; intros str Hstr; [exact Hstr|].
  cbn [wstring_loop].
  destruct (c =? 0); [exact Hstr|].
  destruct (map_find c wchar_literals) as [lit|] eqn:Hlit.
  - apply IH. rewrite all_printable_app, Hstr.
    apply (wchar_literals_printable c lit Hlit).
  - destruct (Z.leb_spec 32 c); destruct (Z.ltb_spec c 127); cbn [andb];
      apply IH; rewrite all_printable_app, Hstr;
      first [apply char_string_printable; lia | apply Format_bsx_04x_printable].
Qed.

(** X9. The text of [wstring] is printable ASCII, whatever the characters
    of the string: control characters, the double quote and the backslash
    are escaped, the characters outside ASCII are written with four
    hexadecimal digits. *)
Theorem wstring_printable :
  forall value, all_printable (wstring value) = true.
Proof.
  intros [chars|]; [|reflexivity].
  unfold wstring. rewrite all_printable_app, wstring_loop_printable; reflexivity.
Qed.

(** ** The reconciled list leaves no hole *)

Section Chained.

Variable mem : Memory.

(** A bound on the ends of the extents. *)
Variable bound : Z.

Let below (d : DataStructure) : Prop := address d + size d <= bound.

Lemma merge_below :
  forall p c,
    in_range p -> in_range c -> address p <= address c -> below c ->
    below (merge p c).
Proof.
  intros p c Hp Hc Hle Hb. unfold below in *.
  pose proof (end_in_range c Hc) as Hend.
  destruct Hp as (Hpa & _ & _). destruct Hc as (Hca & Hcs & Hce).
  unfold merge. cbn [address size].
  rewrite Hend, uintptr_small; lia.
Qed.

Lemma scan_chained :
  forall rest previous fuel,
    in_range previous ->
    Forall in_range rest ->
    below previous ->
    Forall below rest ->
    0 <= address previous ->
    ascending (previous :: rest) ->
    (2 * List.length rest + 1 <= fuel)%nat ->
    exists h tl,
      scan mem fuel previous rest = Some (h :: tl)
      /\ address h = address previous
      /\ Forall in_range (h :: tl)
      /\ Forall below (h :: tl)
      /\ chained (h :: tl).
Proof.
  induction rest as [|current after IH];
    intros previous fuel Hp Hrest Hpb Hrb Hp0 Hasc Hfuel;
    (destruct fuel as [|fuel]; [lia|]).
  - exists previous, []. repeat split; constructor; (assumption || constructor).
  - inversion Hrest as [|? ? Hc Hafter]; subst.
    inversion Hrb as [|? ? Hcb Hab]; subst.
    destruct Hasc as [Hle Hasc].
    cbn [List.length] in Hfuel.
    pose proof (end_in_range previous Hp) as Hpend.
    assert (Hpa : address previous <= DS.end_ previous)
      by (destruct Hp as (? & ? & ?); lia).
    assert (Hmerged :
              forall p, in_range p -> address p <= address current ->
                        in_range (merge p current)
                        /\ below (merge p current)
                        /\ ascending (merge p current :: after)).
    { intros p Hpin Hple.
      split; [apply merge_in_range; assumption|].
      split; [apply merge_below; assumption|].
      destruct after as [|c2 r2]; [exact I|].
      destruct Hasc as [Hle2 Hasc2].
      split; [cbn [merge address]; lia | exact Hasc2]. }
    destruct (merge_test mem previous current) eqn:Ht.
    + rewrite scan_merge by exact Ht.
      destruct (Hmerged previous Hp Hle) as (Hin & Hbe & Has).
      destruct (IH (merge previous current) fuel Hin Hafter Hbe Hab Hp0 Has)
        as (h & tl & Hscan & Ha & Hall & Hbl & Hch); [lia|].
      exists h, tl. repeat split; assumption.
    + destruct (Z.ltb_spec (DS.end_ previous) (address current)) as [Hgap|Hnogap].
      * rewrite scan_gap by assumption.
        destruct fuel as [|fuel]; [lia|].
        destruct (inter_in_range mem previous current Hc Hgap) as (Hiin & Hia & Hie).
        assert (Hib : below (inter mem previous current)).
        { unfold below in *. rewrite <- (end_in_range _ Hiin), Hie.
          destruct Hc as (? & ? & ?). lia. }
        assert (Hnext :
                  exists h tl,
                    scan mem (S fuel) (inter mem previous current) (current :: after)
                    = Some (h :: tl)
                    /\ address h = DS.end_ previous
                    /\ Forall in_range (h :: tl)
                    /\ Forall below (h :: tl)
                    /\ chained (h :: tl)).
        { destruct (merge_test mem (inter mem previous current) current) eqn:Hti.
          - rewrite scan_merge by exact Hti.
            destruct (Hmerged (inter mem previous current) Hiin)
              as (Hin & Hbe & Has); [rewrite Hia; lia|].
            destruct (IH (merge (inter mem previous current) current) fuel
                        Hin Hafter Hbe Hab)
              as (h & tl & Hscan & Ha & Hall & Hbl & Hch);
              [cbn [merge address]; rewrite Hia; lia | exact Has | lia |].
            exists h, tl. repeat split; assumption.
          - rewrite scan_advance by (assumption || lia).
            destruct (IH current fuel Hc Hafter Hcb Hab)
              as (h & tl & Hscan & Ha & Hall & Hbl & Hch);
              [lia | exact Hasc | lia |].
            rewrite Hscan. cbn [option_map].
            exists (inter mem previous current), (h :: tl).
            repeat split; try assumption.
            + constructor; assumption.
            + constructor; assumption.
            + rewrite Ha, Hia. lia.
            + rewrite Ha, Hie. lia. }
        destruct Hnext as (h & tl & Hscan & Ha & Hall & Hbl & Hch).
        rewrite Hscan. cbn [option_map].
        exists previous, (h :: tl). repeat split; try assumption.
        -- constructor; assumption.
        -- constructor; assumption.
        -- rewrite Ha. exact Hpa.
        -- rewrite Ha. lia.
      * rewrite scan_advance by assumption.
        destruct (IH current fuel Hc Hafter Hcb Hab)
          as (h & tl & Hscan & Ha & Hall & Hbl & Hch);
          [lia | exact Hasc | lia |].
        rewrite Hscan. cbn [option_map].
        exists previous, (h :: tl). repeat split; try assumption.
        -- constructor; assumption.
        -- constructor; assumption.
        -- rewrite Ha. exact Hle.
        -- rewrite Ha. exact Hnogap.
Qed.

End Chained.

Lemma last_cons :
  forall (l : list DataStructure) a d, last (a :: l) d = last l a.
Proof.
  induction l as [|b l IH]; intros a d; [reflexivity|].
  change (last (a :: b :: l) d) with (last (b :: l) d).
  rewrite (IH b d), (IH b a). reflexivity.
Qed.

Lemma chained_covers :
  forall rest front x,
    chained (front :: rest) ->
    Forall in_range (front :: rest) ->
    address front <= x < DS.end_ (last rest front) ->
    exists d, In d (front :: rest) /\ address d <= x < DS.end_ d.
Proof.
  induction rest as [|c rest IH]; intros front x Hch Hin Hx.
  - exists front. split; [left; reflexivity | exact Hx].
  - destruct Hch as [[Hle Hend] Hch].
    inversion Hin as [|? ? _ Hin']; subst.
    destruct (Z.lt_ge_cases x (address c)) as [Hlt|Hge].
    + exists front. split; [left; reflexivity | lia].
    + rewrite last_cons in Hx.
      destruct (IH c x Hch Hin') as (d & Hd & Hcov); [lia|].
      exists d. split; [right; exact Hd | exact Hcov].
Qed.

Lemma ascending_head_least :
  forall l p, ascending (p :: l) -> Forall (fun d => address p <= address d) (p :: l).
Proof.
  induction l as [|c l IH]; intros p Hasc.
  - constructor; [lia | constructor].
  - destruct Hasc as [Hle Hasc]. constructor; [lia|].
    specialize (IH c Hasc). eapply Forall_impl; [|exact IH].
    cbn. intros; lia.
Qed.

Lemma sortDataStructures_chained :
  forall (mem : Memory) (bound : Z) (alldata : list DataStructure),
    Forall in_range alldata ->
    Forall (fun d => address d + size d <= bound) alldata ->
    alldata <> [] ->
    exists front rest,
      sortDataStructures mem alldata = Some (front :: rest)
      /\ Forall (fun d => address front <= address d) alldata
      /\ Exists (fun d => address d = address front) alldata
      /\ Forall in_range (front :: rest)
      /\ Forall (fun d => address d + size d <= bound) (front :: rest)
      /\ chained (front :: rest).
Proof.
  intros mem bound alldata Hin Hbelow Hne.
  pose proof (list_sort_ascending alldata) as Hasc.
  pose proof (list_sort_permutation alldata) as Hperm.
  pose proof (Permutation_Forall Hperm Hin) as Hin'.
  pose proof (Permutation_Forall Hperm Hbelow) as Hbelow'.
  unfold sortDataStructures.
  destruct (list_sort alldata) as [|previous rest] eqn:Hsort.
  - apply Permutation_sym, Permutation_nil in Hperm. contradiction.
  - inversion Hin' as [|? ? Hp Hrest]; subst.
    inversion Hbelow' as [|? ? Hpb Hrb]; subst.
    destruct (scan_chained mem bound rest previous (2 * List.length rest + 1)
                Hp Hrest Hpb Hrb (proj1 Hp) Hasc (le_n _))
      as (h & tl & Hscan & Ha & Hall & Hbl & Hch).
    exists h, tl. repeat split; try assumption.
    + rewrite Ha.
      apply (Permutation_Forall (Permutation_sym Hperm)).
      apply ascending_head_least. exact Hasc.
    + apply Exists_exists. exists previous. split; [|symmetry; exact Ha].
      apply (Permutation_in _ (Permutation_sym Hperm)). left. reflexivity.
Qed.

(** X10. On a list of extents that lie in the address space, whatever their
    names, [sortDataStructures] ends; its result starts at the lowest
    address of the list, which is the address of one of its extents and
    is not above the address of any; every extent of the result starts
    within its predecessor or at its end, and every address from the start
    of the first extent of the result to the end of the last is inside an
    extent of the result. *)
Theorem sortDataStructures_covers :
  forall (mem : Memory) (alldata : list DataStructure),
    Forall in_range alldata ->
    alldata <> [] ->
    exists front rest,
      sortDataStructures mem alldata = Some (front :: rest)
      /\ Forall (fun d => address front <= address d) alldata
      /\ Exists (fun d => address d = address front) alldata
      /\ chained (front :: rest)
      /\ (forall x,
            address front <= x < DS.end_ (last rest front) ->
            exists d, In d (front :: rest) /\ address d <= x < DS.end_ d).
Proof.
  intros mem alldata Hin Hne.
  assert (Hbelow : Forall (fun d => address d + size d <= 2 ^ 64) alldata).
  { eapply Forall_impl; [|exact Hin]. intros d (_ & _ & Hd). lia. }
  destruct (sortDataStructures_chained mem (2 ^ 64) alldata Hin Hbelow Hne)
    as (front & rest & Hs & Hleast & Hsome & Hall & _ & Hch).
  exists front, rest. repeat split; try assumption.
  intros x Hx. apply chained_covers; assumption.
Qed.

(** Three extents that overlap or leave a gap, given out of order. *)
Lemma sortDataStructures_covers_run :
  exists front rest,
    sortDataStructures (filled 0)
      [extent "T" 50 10; extent "A" 0 30; extent "B" 10 10]
    = Some (front :: rest)
    /\ address front = 0
    /\ DS.end_ (last rest front) = 60.
Proof.
  destruct (sortDataStructures_covers (filled 0)
              [extent "T" 50 10; extent "A" 0 30; extent "B" 10 10])
    as (front & rest & Hs & _).
  - repeat constructor; cbn; (lia || (intros Hc; discriminate Hc)).
  - discriminate.
  - exists front, rest. split; [exact Hs|].
    vm_compute in Hs. injection Hs as <- <-. split; reflexivity.
Defined.

(** ** The pages of the hexadecimal dump *)

(** The bounds that [genHexaDump] computes are page bounds around the
    data. *)
Lemma page_bounds :
  forall page_size first_address last_address,
    0 < page_size ->
    0 <= first_address <= last_address ->
    last_address + page_size <= 2 ^ 64 ->
    let first_page := first_page_of page_size first_address in
    let last_page := last_page_of page_size last_address in
    first_page mod page_size = 0
    /\ first_page <= first_address < first_page + page_size
    /\ last_page mod page_size = 0
    /\ last_address <= last_page < last_address + page_size
    /\ (last_page - first_page) mod page_size = 0.
Proof.
  intros page_size first_address last_address Hps Hfirst Hlast first_page last_page.
  pose proof (Z.mod_pos_bound first_address page_size Hps) as Hfm.
  pose proof (Z.mod_pos_bound last_address page_size Hps) as Hlm.
  pose proof (Z.div_mod first_address page_size ltac:(lia)) as Hfd.
  pose proof (Z.div_mod last_address page_size ltac:(lia)) as Hld.
  assert (Hbf0 : 0 <= page_size * (first_address / page_size))
    by (apply Z.mul_nonneg_nonneg; [lia | apply Z.div_pos; lia]).
  assert (Hbl0 : 0 <= page_size * (last_address / page_size))
    by (apply Z.mul_nonneg_nonneg; [lia | apply Z.div_pos; lia]).
  set (bf := page_size * (first_address / page_size)) in *.
  set (bl := page_size * (last_address / page_size)) in *.
  assert (Hbf : bf mod page_size = 0)
    by (unfold bf; rewrite Z.mul_comm; apply Z.mod_mul; lia).
  assert (Hbl : bl mod page_size = 0)
    by (unfold bl; rewrite Z.mul_comm; apply Z.mod_mul; lia).
  assert (Hblp : (bl + page_size) mod page_size = 0).
  { rewrite <- Zplus_mod_idemp_r, Z.mod_same, Z.add_0_r by lia. exact Hbl. }
  assert (Hfp : first_page = bf).
  { unfold first_page, first_page_of. rewrite uintptr_small; lia. }
  assert (Hlp : last_page
                = if last_address mod page_size =? 0 then bl else bl + page_size).
  { unfold last_page, last_page_of.
    destruct (Z.eqb_spec (last_address mod page_size) 0) as [Hz|Hnz].
    - rewrite Hz, Z.sub_0_r, Z.mod_same, Z.add_0_r by lia.
      rewrite uintptr_small; lia.
    - rewrite (Z.mod_small (page_size - last_address mod page_size)) by lia.
      rewrite uintptr_small; lia. }
  rewrite Hfp, Hlp.
  destruct (Z.eqb_spec (last_address mod page_size) 0) as [Hz|Hnz].
  - repeat split; try lia; try assumption.
    rewrite Zminus_mod, Hbl, Hbf. reflexivity.
  - repeat split; try lia; try assumption.
    rewrite Zminus_mod, Hblp, Hbf. reflexivity.
Qed.


Lemma chained_last :
  forall rest front,
    chained (front :: rest) ->
    address front <= address (last rest front)
    /\ In (last rest front) (front :: rest).
Proof.
  induction rest as [|c rest IH]; intros front Hch.
  - cbn [last]. split; [lia | left; reflexivity].
  - destruct Hch as [[Hle _] Hch]. rewrite last_cons.
    destruct (IH c Hch) as [Hl Hin]. split; [lia | right; exact Hin].
Qed.

(** X11. The hexadecimal dump covers whole pages without a hole. For a page
    size above zero and extents that lie in the address space and end at
    least one page before its end, [genHexaDump] dumps from a page start,
    less than one page before the lowest address of the list, to a page
    end, less than one page after the end of a dumped section, and every
    address between these bounds is inside a dumped section. *)
Theorem genHexaDump_covers :
  forall (mem : Memory) (page_size : Z) (alldata : list DataStructure),
    0 < page_size ->
    Forall in_range alldata ->
    Forall (fun d => address d + size d <= 2 ^ 64 - page_size) alldata ->
    alldata <> [] ->
    exists first_page last_page sections,
      genHexaDump mem page_size alldata = Some (first_page, last_page, sections)
      /\ first_page mod page_size = 0
      /\ last_page mod page_size = 0
      /\ Forall (fun d => first_page <= address d) alldata
      /\ Exists (fun d => address d < first_page + page_size) alldata
      /\ Exists (fun d => DS.end_ d <= last_page < DS.end_ d + page_size) sections
      /\ (forall x,
            first_page <= x < last_page ->
            exists d, In d sections /\ address d <= x < DS.end_ d).
Proof.
  intros mem page_size alldata Hps Hin Hbelow Hne.
  destruct (sortDataStructures_chained mem (2 ^ 64 - page_size) alldata
              Hin Hbelow Hne)
    as (front & rest & Hs & Hleast & Hsame & Hall & Hbl & Hch).
  unfold genHexaDump. rewrite Hs.
  destruct (chained_last rest front Hch) as [Hfl Hlin].
  pose proof Hall as Hall'. rewrite Forall_forall in Hall', Hbl.
  pose proof (Hall' front (or_introl eq_refl)) as Hfront.
  pose proof (Hall' _ Hlin) as Hlast. pose proof (Hbl _ Hlin) as Hlastb.
  cbn beta in Hlastb.
  pose proof (end_in_range _ Hlast) as Hlend.
  assert (Hfa : uintptr (address front) = address front).
  { apply uintptr_small. destruct Hfront as (? & ? & ?). lia. }
  assert (Hla : uintptr (DS.end_ (last rest front)) = DS.end_ (last rest front)).
  { apply uintptr_small. apply uintptr_range. }
  rewrite Hfa, Hla.
  assert (Horder : 0 <= address front <= DS.end_ (last rest front)).
  { destruct Hfront as (? & ? & ?). destruct Hlast as (? & ? & ?). lia. }
  assert (Hroom : DS.end_ (last rest front) + page_size <= 2 ^ 64) by lia.
  destruct (page_bounds page_size (address front) (DS.end_ (last rest front))
              Hps Horder Hroom)
    as (Hfm & Hfb & Hlm & Hlb & _).
  cbv zeta in Hfm, Hfb, Hlm, Hlb.
  set (first_page := first_page_of page_size (address front)) in *.
  set (last_page := last_page_of page_size (DS.end_ (last rest front))) in *.
  cbv zeta.
  eexists first_page, last_page, _. split; [reflexivity|].
  split; [exact Hfm|]. split; [exact Hlm|].
  split; [| split; [| split]].
  - eapply Forall_impl; [|exact Hleast]. cbn. intros; lia.
  - apply Exists_exists in Hsame as (d & Hd & Hda).
    apply Exists_exists. exists d. split; [exact Hd | lia].
  - apply Exists_exists. exists (last rest front). split; [|lia].
    apply in_or_app. right. apply in_or_app. left. exact Hlin.
  - intros x Hx.
    destruct (Z.lt_ge_cases x (address front)) as [Hlow|Hge].
    + destruct (Z.ltb_spec first_page (address front)); [|lia].
      eexists. split; [left; reflexivity|].
      unfold DS.end_. cbn [address size].
      rewrite (uintptr_small (address front - first_page)) by lia.
      rewrite uintptr_small by lia. lia.
    + destruct (Z.lt_ge_cases x (DS.end_ (last rest front))) as [Hmid|Hhigh].
      * destruct (chained_covers rest front x Hch Hall) as (d & Hd & Hcov);
          [lia|].
        exists d. split; [|exact Hcov].
        apply in_or_app. right. apply in_or_app. left. exact Hd.
      * destruct (Z.ltb_spec (DS.end_ (last rest front)) last_page); [|lia].
        eexists. split.
        -- apply in_or_app. right. apply in_or_app. right. left. reflexivity.
        -- unfold DS.end_ at 2 3. cbn [address size].
           rewrite (uintptr_small (last_page - DS.end_ (last rest front))) by lia.
           rewrite uintptr_small by lia. lia.
Qed.

(** Pages of 4096 bytes around two tables at 0x1234 and 0x2000. *)
Lemma genHexaDump_covers_run :
  exists sections,
    genHexaDump (filled 0) 4096 [extent "T" 8192 16; extent "S" 4660 100]
    = Some (4096, 12288, sections)
    /\ List.length sections = 5%nat.
Proof.
  destruct (genHexaDump_covers (filled 0) 4096
              [extent "T" 8192 16; extent "S" 4660 100])
    as (first_page & last_page & sections & Hdump & _).
  - lia.
  - repeat constructor; cbn; (lia || (intros Hc; discriminate Hc)).
  - repeat constructor; cbn; intros Hc; discriminate Hc.
  - discriminate.
  - vm_compute in Hdump. injection Hdump as <- <- <-.
    eexists. split; reflexivity.
Defined.

(** ** What the walks read *)

Section Footprint.

Variable H : KbdHeader.
Variable opt : ReverseOptions.
Variables mem mem' : Memory.

Lemma genVkToBits_loop_footprint :
  forall k fuel vtb grid,
    0 <= vtb ->
    vtb + 2 * Z.of_nat k + 2 <= 2 ^ 64 ->
    sentinel_first mem vtb 2 k ->
    agree mem mem' vtb (vtb + 2 * Z.of_nat k + 1) ->
    genVkToBits_loop H opt mem' fuel vtb grid
    = genVkToBits_loop H opt mem fuel vtb grid.
Proof.
  induction k as [|k IH]; intros fuel vtb grid Hlo Hhi Hs Hag;
    (destruct fuel as [|fuel]; [reflexivity|]); cbn [genVkToBits_loop];
    unfold read8.
  - rewrite (Hag vtb) by lia. destruct Hs as [_ Hat]. cbn in Hat.
    unfold read8 in Hat. rewrite Hat. reflexivity.
  - apply sentinel_first_next in Hs as [Hkey Hs]. unfold read8 in Hkey.
    rewrite (Hag vtb) by lia.
    destruct (Z.eqb_spec (mem vtb) 0) as [|_]; [contradiction|]. cbn [negb].
    rewrite (uintptr_small (vtb + 1)), (uintptr_small (vtb + 2)) in * by lia.
    rewrite (Hag (vtb + 1)) by lia.
    apply IH; [lia | lia | exact Hs|].
    intros a Ha. apply Hag. lia.
Qed.

Lemma wch_columns_footprint :
  forall n i count vtwc grid comments,
    0 <= i -> 0 <= vtwc ->
    vtwc + 2 + 2 * (i + Z.of_nat n) <= 2 ^ 64 ->
    agree mem mem' vtwc (vtwc + 2 + 2 * (i + Z.of_nat n)) ->
    wch_columns H opt mem' n i count vtwc grid comments
    = wch_columns H opt mem n i count vtwc grid comments.
Proof.
  induction n as [|n IH]; intros i count vtwc grid comments Hi Hlo Hhi Hag;
    [reflexivity|].
  cbn [wch_columns]. unfold read16, read8.
  rewrite (uintptr_small (vtwc + 2 + 2 * i)) by lia.
  rewrite (uintptr_small (vtwc + 2 + 2 * i + 1)) by lia.
  rewrite (Hag (vtwc + 2 + 2 * i)), (Hag (vtwc + 2 + 2 * i + 1)) by lia.
  destruct (wchar H opt (mem (vtwc + 2 + 2 * i) + 256 * mem (vtwc + 2 + 2 * i + 1))
              comments) as [str comments'].
  apply IH; [lia | lia | lia |].
  intros a Ha. apply Hag. lia.
Qed.

Lemma genSubVkToWchar_loop_footprint :
  forall count sz k fuel vtwc grid,
    0 <= count -> 2 + 2 * count <= sz ->
    0 <= vtwc ->
    vtwc + sz * (Z.of_nat k + 1) <= 2 ^ 64 ->
    sentinel_first mem vtwc sz k ->
    agree mem mem' vtwc (vtwc + sz * Z.of_nat k + 1) ->
    genSubVkToWchar_loop H opt mem' fuel vtwc count sz grid
    = genSubVkToWchar_loop H opt mem fuel vtwc count sz grid.
Proof.
  intros count sz. induction k as [|k IH];
    intros fuel vtwc grid Hc Hsz Hlo Hhi Hs Hag;
    (destruct fuel as [|fuel]; [reflexivity|]); cbn [genSubVkToWchar_loop];
    unfold read8.
  - rewrite (Hag vtwc) by lia. destruct Hs as [_ Hat]. cbn in Hat.
    unfold read8 in Hat. rewrite Hat. reflexivity.
  - apply sentinel_first_next in Hs as [Hkey Hs]. unfold read8 in Hkey.
    rewrite Nat2Z.inj_succ in Hhi, Hag.
    rewrite Z.mul_add_distr_l, Z.mul_succ_r, Z.mul_1_r in Hhi.
    rewrite Z.mul_succ_r in Hag.
    assert (Hk : 0 <= sz * Z.of_nat k) by (apply Z.mul_nonneg_nonneg; lia).
    rewrite (Hag vtwc) by lia.
    destruct (Z.eqb_spec (mem vtwc) 0) as [|_]; [contradiction|]. cbn [negb].
    rewrite (uintptr_small (vtwc + 1)), (uintptr_small (vtwc + sz)) in * by lia.
    rewrite (Hag (vtwc + 1)) by lia.
    rewrite wch_columns_footprint;
      [| lia | lia | rewrite Z2Nat.id by lia; lia
       | intros a Ha; apply Hag; rewrite Z2Nat.id in Ha by lia; lia].
    destruct (wch_columns H opt mem (Z.to_nat count) 0 count vtwc _ [])
      as [grid1 comments].
    apply IH; [lia | lia | lia | | exact Hs|].
    + rewrite Z.mul_add_distr_l, Z.mul_1_r. lia.
    + intros a Ha. apply Hag. lia.
Qed.

End Footprint.

(** X12. The walks read nothing after the key of the sentinel. If the first
    record with a zero key is the record [k] and two memory images hold the
    same bytes from the start of the array to the key of this record,
    [genVkToBits] and [genSubVkToWchar] give the same grid and the same
    extent on both, whatever follows in memory. For [genSubVkToWchar] the
    records have to hold their [count] characters. *)
Theorem walks_read_up_to_sentinel :
  forall (H : KbdHeader) (opt : ReverseOptions) (mem mem' : Memory)
         (name : WString) (k fuel : nat),
    (forall vtb,
        0 <= vtb ->
        vtb + 2 * Z.of_nat k + 2 <= 2 ^ 64 ->
        sentinel_first mem vtb 2 k ->
        agree mem mem' vtb (vtb + 2 * Z.of_nat k + 1) ->
        genVkToBits H opt mem' fuel vtb name = genVkToBits H opt mem fuel vtb name)
    /\ (forall vtwc count sz,
          0 <= count -> 2 + 2 * count <= sz ->
          0 <= vtwc ->
          vtwc + sz * (Z.of_nat k + 1) <= 2 ^ 64 ->
          sentinel_first mem vtwc sz k ->
          agree mem mem' vtwc (vtwc + sz * Z.of_nat k + 1) ->
          genSubVkToWchar H opt mem' fuel vtwc count sz name
          = genSubVkToWchar H opt mem fuel vtwc count sz name).
Proof.
  intros H opt mem mem' name k fuel. split.
  - intros vtb Hlo Hhi Hs Hag. unfold genVkToBits.
    rewrite (genVkToBits_loop_footprint H opt mem mem' k fuel vtb []);
      [reflexivity | assumption ..].
  - intros vtwc count sz Hc Hsz Hlo Hhi Hs Hag. unfold genSubVkToWchar.
    rewrite (genSubVkToWchar_loop_footprint H opt mem mem' count sz k fuel vtwc []);
      [reflexivity | assumption ..].
Qed.

(** A table of two modifier keys, followed by zeros or by other bytes. *)
Lemma walks_read_up_to_sentinel_run :
  genVkToBits sdk (opt_of false) (image [16; 1; 17; 2; 0; 9; 9; 9]) 3 0 "vk_to_bits"
  = genVkToBits sdk (opt_of false) (image [16; 1; 17; 2; 0; 0]) 3 0 "vk_to_bits".
Proof.
  destruct (walks_read_up_to_sentinel sdk (opt_of false)
              (image [16; 1; 17; 2; 0; 0]) (image [16; 1; 17; 2; 0; 9; 9; 9])
              "vk_to_bits" 2 3) as [Hbits _].
  apply Hbits.
  - lia.
  - cbn. lia.
  - split; [|reflexivity].
    intros [|[|i]] Hi; [discriminate | discriminate | lia].
  - intros a Ha. cbn in Ha.
    assert (Hcases : a = 0 \/ a = 1 \/ a = 2 \/ a = 3 \/ a = 4) by lia.
    destruct Hcases as [-> | [-> | [-> | [-> | ->]]]]; reflexivity.
Defined.

(** ** The command line *)

Section CommandLineProperties.

Variable ToInt : WString -> Z.

(** What a successful parse [opt] of [args] has kept of the options [opt0]
    that it started from. *)
Let kept (args : list WString) (opt0 opt : ReverseOptions) : Prop :=
  (empty (input opt0) = false -> input opt = input opt0)
  /\ (empty (input opt0) = true ->
      In (input opt) args /\ empty (input opt) = false
      /\ front_is_dash (input opt) = false)
  /\ (num_only opt = true -> num_only opt0 = true \/ In "-n" args)
  /\ (hexa_dump opt = true -> hexa_dump opt0 = true \/ In "-d" args)
  /\ (gen_resources opt = true -> gen_resources opt0 = true \/ In "-r" args).

Lemma kept_step :
  forall args args' opt0 opt1 opt,
    incl args' args ->
    (input opt1 = input opt0
     \/ (empty (input opt0) = true /\ In (input opt1) args
         /\ empty (input opt1) = false /\ front_is_dash (input opt1) = false)) ->
    (num_only opt1 = true -> num_only opt0 = true \/ In "-n" args) ->
    (hexa_dump opt1 = true -> hexa_dump opt0 = true \/ In "-d" args) ->
    (gen_resources opt1 = true -> gen_resources opt0 = true \/ In "-r" args) ->
    kept args' opt1 opt ->
    kept args opt0 opt.
Proof.
  intros args args' opt0 opt1 opt Hincl Hinput Hn Hd Hr (K1 & K2 & Kn & Kd & Kr).
  unfold kept. repeat apply conj.
  - intros He. destruct Hinput as [Hi | (He0 & _)]; [|congruence].
    rewrite <- Hi. apply K1. rewrite Hi. exact He.
  - intros He. destruct Hinput as [Hi | (_ & Hin & He1 & Hf1)].
    + rewrite <- Hi in He. destruct (K2 He) as (Hin & Hne & Hf).
      repeat split; [apply Hincl; exact Hin | exact Hne | exact Hf].
    + rewrite (K1 He1). repeat split; assumption.
  - intros Ht. destruct (Kn Ht) as [Ht1 | Hin]; [apply Hn; exact Ht1|].
    right. apply Hincl. exact Hin.
  - intros Ht. destruct (Kd Ht) as [Ht1 | Hin]; [apply Hd; exact Ht1|].
    right. apply Hincl. exact Hin.
  - intros Ht. destruct (Kr Ht) as [Ht1 | Hin]; [apply Hr; exact Ht1|].
    right. apply Hincl. exact Hin.
Qed.

Lemma parse_args_kept :
  forall n args opt0 opt,
    (List.length args <= n)%nat ->
    parse_args ToInt args opt0 = Parsed opt ->
    kept args opt0 opt.
Proof.
  induction n as [|n IH]; intros args opt0 opt Hlen Hp.
  - destruct args; [|cbn in Hlen; lia].
    cbn in Hp. destruct (empty (input opt0)) eqn:He; [discriminate|].
    injection Hp as <-. unfold kept. rewrite He.
    repeat apply conj; try discriminate; intros; try reflexivity; left; assumption.
  - destruct args as [|a rest].
    { apply (IH [] opt0 opt); [cbn; lia | exact Hp]. }
    cbn [parse_args] in Hp. cbn [List.length] in Hlen.
    destruct ((a =? "--help") || (a =? "-h"))%string; [discriminate|].
    assert (Hflag :
              forall opt1,
                input opt1 = input opt0 ->
                (num_only opt1 = true -> num_only opt0 = true \/ a = "-n") ->
                (hexa_dump opt1 = true -> hexa_dump opt0 = true \/ a = "-d") ->
                (gen_resources opt1 = true -> gen_resources opt0 = true \/ a = "-r") ->
                parse_args ToInt rest opt1 = Parsed opt ->
                kept (a :: rest) opt0 opt).
    { intros opt1 Hi Hn Hd Hr Hq.
      apply (kept_step (a :: rest) rest opt0 opt1 opt).
      - apply incl_tl, incl_refl.
      - left. exact Hi.
      - intros Ht. destruct (Hn Ht) as [? | ->]; [left; assumption | right; left; reflexivity].
      - intros Ht. destruct (Hd Ht) as [? | ->]; [left; assumption | right; left; reflexivity].
      - intros Ht. destruct (Hr Ht) as [? | ->]; [left; assumption | right; left; reflexivity].
      - apply IH; [lia | exact Hq]. }
    assert (Hvalue :
              forall v rest' opt1,
                rest = v :: rest' ->
                input opt1 = input opt0 ->
                num_only opt1 = num_only opt0 ->
                hexa_dump opt1 = hexa_dump opt0 ->
                gen_resources opt1 = gen_resources opt0 ->
                parse_args ToInt rest' opt1 = Parsed opt ->
                kept (a :: rest) opt0 opt).
    { intros v rest' opt1 -> Hi Hn Hd Hr Hq.
      apply (kept_step (a :: v :: rest') rest' opt0 opt1 opt).
      - apply incl_tl, incl_tl, incl_refl.
      - left. exact Hi.
      - intros Ht. left. congruence.
      - intros Ht. left. congruence.
      - intros Ht. left. congruence.
      - apply IH; [cbn [List.length] in Hlen; lia | exact Hq]. }
    assert (Hpos :
              (if negb (empty a) && negb (front_is_dash a) && empty (input opt0)
               then parse_args ToInt rest (set_input opt0 a)
               else Fatal ("invalid option '" ++ a ++ "', try --help"))
              = Parsed opt ->
              kept (a :: rest) opt0 opt).
    { intros Hq.
      destruct (empty a) eqn:Hea; [discriminate|].
      destruct (front_is_dash a) eqn:Hfa; [discriminate|].
      destruct (empty (input opt0)) eqn:Hei; [|discriminate].
      cbn [negb andb] in Hq.
      apply (kept_step (a :: rest) rest opt0 (set_input opt0 a) opt).
      - apply incl_tl, incl_refl.
      - right. cbn [set_input input]. repeat split; try assumption.
        left. reflexivity.
      - intros Ht. left. exact Ht.
      - intros Ht. left. exact Ht.
      - intros Ht. left. exact Ht.
      - apply IH; [lia | exact Hq]. }
    destruct (a =? "-d")%string eqn:Ed.
    { apply String.eqb_eq in Ed.
      apply (Hflag (set_hexa_dump opt0)); try reflexivity;
        try (intros; left; assumption); [intros; right; exact Ed | exact Hp]. }
    destruct (a =? "-n")%string eqn:En.
    { apply String.eqb_eq in En.
      apply (Hflag (set_num_only opt0)); try reflexivity;
        try (intros; left; assumption); [intros; right; exact En | exact Hp]. }
    destruct (a =? "-r")%string eqn:Er.
    { apply String.eqb_eq in Er.
      apply (Hflag (set_gen_resources opt0)); try reflexivity;
        try (intros; left; assumption); [intros; right; exact Er | exact Hp]. }
    destruct (a =? "-o")%string, rest as [|v rest'];
      try (apply (Hvalue v rest' (set_output opt0 v)); (reflexivity || exact Hp));
      destruct (a =? "-c")%string;
      try (apply (Hvalue v rest' (set_comment opt0 v)); (reflexivity || exact Hp));
      destruct (a =? "-t")%string;
      try (apply (Hvalue v rest' (set_kbd_type opt0 (ToInt v)));
           (reflexivity || exact Hp));
      apply Hpos; exact Hp.
Qed.

End CommandLineProperties.

(** X13. When the constructor of [ReverseOptions] accepts a command line,
    the input is one of the arguments, is not empty and does not start with
    a dash; the numeric-only mode, the hexadecimal dump and the resource
    mode are on only if -n, -d and -r are among the arguments. A command
    line without such an input is refused. *)
Theorem ReverseOptions_parsed :
  forall (ToInt : WString -> Z) (args : list WString) (opt : ReverseOptions),
    ReverseOptions_of ToInt args = Parsed opt ->
    In (input opt) args
    /\ empty (input opt) = false
    /\ front_is_dash (input opt) = false
    /\ (num_only opt = true -> In "-n" args)
    /\ (hexa_dump opt = true -> In "-d" args)
    /\ (gen_resources opt = true -> In "-r" args).
Proof.
  intros ToInt args opt Hp.
  destruct (parse_args_kept ToInt (List.length args) args (opt_of false) opt
              (le_n _) Hp) as (_ & K2 & Kn & Kd & Kr).
  destruct (K2 eq_refl) as (Hin & Hne & Hf).
  repeat split; try assumption.
  - intros Ht. destruct (Kn Ht) as [Hc | Hin']; [discriminate Hc | exact Hin'].
  - intros Ht. destruct (Kd Ht) as [Hc | Hin']; [discriminate Hc | exact Hin'].
  - intros Ht. destruct (Kr Ht) as [Hc | Hin']; [discriminate Hc | exact Hin'].
Qed.

(** The keyboard fr with a numeric dump to a file. *)
Lemma ReverseOptions_parsed_run :
  exists opt,
    ReverseOptions_of (fun _ => 0) ["-n"; "-o"; "-d"; "fr"] = Parsed opt
    /\ input opt = "fr" /\ output opt = "-d" /\ hexa_dump opt = false
    /\ In (input opt) ["-n"; "-o"; "-d"; "fr"].
Proof.
  eexists. split; [reflexivity|]. repeat split.
  apply (ReverseOptions_parsed (fun _ => 0) ["-n"; "-o"; "-d"; "fr"] _ eq_refl).
Defined.

Example ReverseOptions_dangling_option :
  ReverseOptions_of (fun _ => 0) ["fr"; "-o"]
  = Fatal "invalid option '-o', try --help".
Proof. reflexivity. Qed.

Example ReverseOptions_second_input :
  ReverseOptions_of (fun _ => 0) ["fr"; "us"]
  = Fatal "invalid option 'us', try --help".
Proof. reflexivity. Qed.

Example ReverseOptions_no_input :
  ReverseOptions_of (fun _ => 0) ["-n"; "-c"; "fr"]
  = Fatal "no keyboard layout specified, try --help".
Proof. reflexivity. Qed.

(** ** The keyboard layout to open *)

Lemma has_any_of_app :
  forall chars s t,
    has_any_of chars (s ++ t) = has_any_of chars s || has_any_of chars t.
Proof.
  intros chars. induction s as [|c s IH]; intros t; cbn; [reflexivity|].
  rewrite IH, orb_assoc. reflexivity.
Qed.

(** X14. The input that [wmain] opens always has a separator in it, and
    resolving it a second time changes nothing: the name of a keyboard is
    turned into a file of the system directory once, a file name is left
    as it is. *)
Theorem resolve_input_idempotent :
  forall system_root input,
    has_any_of path_chars (resolve_input system_root input) = true
    /\ resolve_input system_root (resolve_input system_root input)
       = resolve_input system_root input.
Proof.
  intros system_root input.
  assert (Hsep : has_any_of path_chars (resolve_input system_root input) = true).
  { unfold resolve_input.
    destruct (has_any_of path_chars input) eqn:Hin; cbn [negb]; [exact Hin|].
    rewrite has_any_of_app. apply orb_true_iff. right. reflexivity. }
  split; [exact Hsep|].
  unfold resolve_input at 1. rewrite Hsep. reflexivity.
Qed.

Example resolve_input_fr :
  resolve_input "C:\Windows" "fr" = "C:\Windows\System32\kbdfr.dll".
Proof. reflexivity. Qed.

(** ** The description of a keyboard in the registry *)

Lemma length_zero_empty : forall t : string, String.length t = O -> t = EmptyString.
Proof. intros [|c t] Hl; [reflexivity | discriminate]. Qed.

Lemma shortest_loop_spec :
  forall texts i index desc_length,
    (shortest_loop texts i index desc_length = index
     /\ forall j t, nth_error texts j = Some t ->
                    String.length t = O
                    \/ desc_length <= Z.of_nat (String.length t))
    \/ exists j t,
        shortest_loop texts i index desc_length = (i + j)%nat
        /\ nth_error texts j = Some t
        /\ 0 < Z.of_nat (String.length t) < desc_length
        /\ forall j' t',
            nth_error texts j' = Some t' -> (0 < String.length t')%nat ->
            (String.length t <= String.length t')%nat
            /\ (String.length t' = String.length t -> (j <= j')%nat).
Proof.
  induction texts as [|text rest IH]; intros i index desc_length.
  - left. split; [reflexivity|]. intros [|j] t Hn; discriminate.
  - cbn [shortest_loop].
    assert (Hshift :
              forall desc index', 
                (Z.of_nat (String.length text) = 0
                 \/ desc <= Z.of_nat (String.length text)) ->
                (exists j t,
                    shortest_loop rest (S i) index' desc = (S i + j)%nat
                    /\ nth_error rest j = Some t
                    /\ 0 < Z.of_nat (String.length t) < desc
                    /\ forall j' t',
                        nth_error rest j' = Some t' -> (0 < String.length t')%nat ->
                        (String.length t <= String.length t')%nat
                        /\ (String.length t' = String.length t -> (j <= j')%nat)) ->
                exists j t,
                  shortest_loop rest (S i) index' desc = (i + j)%nat
                  /\ nth_error (text :: rest) j = Some t
                  /\ 0 < Z.of_nat (String.length t) < desc
                  /\ forall j' t',
                      nth_error (text :: rest) j' = Some t' ->
                      (0 < String.length t')%nat ->
                      (String.length t <= String.length t')%nat
                      /\ (String.length t' = String.length t -> (j <= j')%nat)).
    { intros desc index' Htext (j & t & Hr & Hn & Hb & Hmin).
      exists (S j), t. split; [rewrite Hr; lia|]. split; [exact Hn|].
      split; [exact Hb|].
      intros [|j'] t' Hn' Hp'; cbn in Hn'.
      - injection Hn' as <-. split; lia.
      - destruct (Hmin j' t' Hn' Hp') as [Hle Hfirst].
        split; [exact Hle|]. intros He. specialize (Hfirst He). lia. }
    destruct (Z.gtb_spec (Z.of_nat (String.length text)) 0) as [Hpos|Hzero];
      [destruct (Z.ltb_spec (Z.of_nat (String.length text)) desc_length)
         as [Hlt|Hge]|]; cbn [andb].
    + right.
      destruct (IH (S i) i (Z.of_nat (String.length text)))
        as [[Hr Hall] | Hfound].
      * exists O, text. split; [rewrite Hr; lia|]. split; [reflexivity|].
        split; [lia|].
        intros [|j'] t' Hn' Hp'; cbn in Hn'.
        -- injection Hn' as <-. split; lia.
        -- destruct (Hall j' t' Hn'); split; lia.
      * destruct (Hshift (Z.of_nat (String.length text)) i
                    (or_intror (Z.le_refl (Z.of_nat (String.length text))))
                    Hfound) as (j & t & Hr & Hn & Hb & Hmin).
        exists j, t. split; [exact Hr|]. split; [exact Hn|].
        split; [lia | exact Hmin].
    + destruct (IH (S i) index desc_length) as [[Hr Hall] | Hfound].
      * left. split; [exact Hr|].
        intros [|j] t Hn; cbn in Hn; [injection Hn as <-; right; lia|].
        apply (Hall j t Hn).
      * right. apply Hshift; [right; lia | exact Hfound].
    + destruct (IH (S i) index desc_length) as [[Hr Hall] | Hfound].
      * left. split; [exact Hr|].
        intros [|j] t Hn; cbn in Hn; [injection Hn as <-; left; lia|].
        apply (Hall j t Hn).
      * right. apply Hshift; [left; lia | exact Hfound].
Qed.

(** X15. The loop of [GenerateResourceFile] over the descriptions of a
    keyboard selects an index of the list; if a description is not empty,
    the selected one is not empty, no description that is not empty is
    shorter, and none of the same length comes before it. If every
    description is empty the index is 0. *)
Theorem shortest_index_spec :
  forall texts,
    Forall (fun t => Z.of_nat (String.length t) < npos) texts ->
    (texts <> [] -> (shortest_index texts < List.length texts)%nat)
    /\ (Forall (fun t => t = EmptyString) texts -> shortest_index texts = O)
    /\ (forall j t,
          nth_error texts j = Some t -> t <> EmptyString ->
          exists s,
            nth_error texts (shortest_index texts) = Some s
            /\ s <> EmptyString
            /\ (String.length s <= String.length t)%nat
            /\ (String.length s = String.length t ->
                (shortest_index texts <= j)%nat)).
Proof.
  intros texts Hlen. unfold shortest_index.
  destruct (shortest_loop_spec texts 0 0 npos)
    as [[Hr Hall] | (j0 & s & Hr & Hn & Hb & Hmin)]; rewrite Hr.
  - repeat split.
    + intros Hne. destruct texts; [contradiction | cbn; lia].
    + intros j t Hn Hne. exfalso.
      destruct (Hall j t Hn) as [Hz | Hbig];
        [apply Hne, length_zero_empty, Hz|].
      rewrite Forall_forall in Hlen.
      pose proof (Hlen t (nth_error_In _ _ Hn)). cbn beta in *. lia.
  - cbn [Nat.add]. repeat split.
    + intros _. apply nth_error_Some. rewrite Hn. discriminate.
    + intros Hempty. exfalso. rewrite Forall_forall in Hempty.
      rewrite (Hempty s (nth_error_In _ _ Hn)) in Hb. cbn in Hb. lia.
    + intros j t Hnj Hne. exists s.
      assert (Hpos : (0 < String.length t)%nat).
      { destruct t; [contradiction | cbn; lia]. }
      destruct (Hmin j t Hnj Hpos) as [Hle Hfirst].
      repeat split; try assumption.
      * intros ->. cbn in Hb. lia.
      * intros He. apply Hfirst. symmetry. exact He.
Qed.

(** Four registry entries of one keyboard. *)
Lemma shortest_index_spec_run :
  shortest_index [""; "French (Legacy, AZERTY)"; "French"; "Breton"] = 2%nat
  /\ (shortest_index [""; "French (Legacy, AZERTY)"; "French"; "Breton"] < 4)%nat.
Proof.
  destruct (shortest_index_spec
              [""; "French (Legacy, AZERTY)"; "French"; "Breton"])
    as (Hin & _ & _).
  - repeat constructor.
  - split; [reflexivity|]. apply Hin. discriminate.
Defined.

(** ** The extent of a walk *)

Lemma record_at_offset :
  forall p sz n, uintptr (record_at p sz n - p) = uintptr (sz * Z.of_nat n).
Proof.
  intros p sz. induction n as [|n IH].
  - cbn. rewrite Z.sub_diag, Z.mul_0_r. reflexivity.
  - unfold record_at in *. rewrite Nat.iter_succ.
    set (r := Nat.iter n (fun a => uintptr (a + sz)) p) in *.
    unfold uintptr in *.
    rewrite Zminus_mod_idemp_l.
    replace (r + sz - p) with ((r - p) + sz) by lia.
    rewrite <- Zplus_mod_idemp_l, IH, Zplus_mod_idemp_l.
    f_equal. lia.
Qed.

(** X16. The extent that a walk records covers its records and the sentinel:
    when the first record with a zero key is the record [k], the extent of
    [genVkToBits] starts at the array and has [2 * (k + 1)] bytes, and the
    extent of [genSubVkToWchar] has [size * (k + 1)] bytes, counted as
    64-bit values. *)
Theorem walk_extent_size :
  forall (H : KbdHeader) (opt : ReverseOptions) (mem : Memory) (n : WString)
         (k fuel : nat),
    (k < fuel)%nat ->
    (forall vtb,
        sentinel_first mem vtb 2 k ->
        exists grid,
          genVkToBits H opt mem fuel vtb n
          = Some (grid, {| name := n; address := vtb;
                           size := uintptr (2 * (Z.of_nat k + 1)) |}))
    /\ (forall vtwc count sz,
          sentinel_first mem vtwc sz k ->
          exists grid,
            genSubVkToWchar H opt mem fuel vtwc count sz n
            = Some (grid, {| name := n; address := vtwc;
                             size := uintptr (sz * (Z.of_nat k + 1)) |})).
Proof.
  intros H opt mem n k fuel Hfuel.
  assert (Hsize : forall p sz,
             DS.setEnd {| name := n; address := p; size := 0 |}
               (uintptr (record_at p sz k + sz))
             = {| name := n; address := p;
                  size := uintptr (sz * (Z.of_nat k + 1)) |}).
  { intros p sz. unfold DS.setEnd.
    change (uintptr (record_at p sz k + sz)) with (record_at p sz (S k)).
    cbn [name address].
    f_equal.
    rewrite record_at_offset, Nat2Z.inj_succ. reflexivity. }
  split.
  - intros vtb Hs.
    destruct (genVkToBits_loop_stops H opt mem k fuel vtb [] Hs) as [Hstop _].
    destruct (Hstop Hfuel) as (grid & Hloop & _).
    unfold genVkToBits. rewrite Hloop, Hsize. eexists. reflexivity.
  - intros vtwc count sz Hs.
    destruct (genSubVkToWchar_loop_stops H opt mem count sz k fuel vtwc [] Hs)
      as [Hstop _].
    destruct (Hstop Hfuel) as (grid & Hloop & _).
    unfold genSubVkToWchar. rewrite Hloop, Hsize. eexists. reflexivity.
Qed.

(** Two records of six bytes and their sentinel. *)
Lemma walk_extent_size_run :
  exists grid,
    genSubVkToWchar sdk (opt_of false)
      (image [65; 1; 97; 0; 65; 0; 66; 0; 233; 0; 66; 0; 0; 0; 0; 0; 0; 0])
      3 0 2 6 "vk_to_wchar2"
    = Some (grid, extent "vk_to_wchar2" 0 18).
Proof.
  destruct (walk_extent_size sdk (opt_of false)
              (image [65; 1; 97; 0; 65; 0; 66; 0; 233; 0; 66; 0; 0; 0; 0; 0; 0; 0])
              "vk_to_wchar2" 2 3) as [_ Hsub]; [lia|].
  apply (Hsub 0 2 6).
  split; [|reflexivity].
  intros [|[|i]] Hi; [discriminate | discriminate | lia].
Defined.

(** ** The sort is determined *)

Lemma ascending_least :
  forall x l d, ascending (x :: l) -> In d (x :: l) -> address x <= address d.
Proof.
  intros x l d Hasc Hin.
  pose proof (ascending_head_least l x Hasc) as Hall.
  rewrite Forall_forall in Hall. apply Hall. exact Hin.
Qed.

Lemma filter_address_in :
  forall d l, In d l -> In d (filter (fun x => address x =? address d) l).
Proof. intros d l Hin. apply filter_In. split; [exact Hin | apply Z.eqb_refl]. Qed.

Lemma stable_ascending_unique :
  forall l1 l2,
    ascending l1 -> ascending l2 ->
    (forall a, filter (fun x => address x =? a) l1
               = filter (fun x => address x =? a) l2) ->
    l1 = l2.
Proof.
  induction l1 as [|x l1 IH]; intros l2 Ha1 Ha2 Hf.
  - destruct l2 as [|y l2]; [reflexivity|].
    specialize (Hf (address y)). cbn in Hf. rewrite Z.eqb_refl in Hf.
    discriminate.
  - destruct l2 as [|y l2].
    { specialize (Hf (address x)). cbn in Hf. rewrite Z.eqb_refl in Hf.
      discriminate. }
    assert (Hxy : address x = address y).
    { assert (Hy : In y (x :: l1)).
      { pose proof (filter_address_in y (y :: l2) (or_introl eq_refl)) as Hin.
        rewrite <- Hf in Hin. apply filter_In in Hin. apply Hin. }
      assert (Hx : In x (y :: l2)).
      { pose proof (filter_address_in x (x :: l1) (or_introl eq_refl)) as Hin.
        rewrite Hf in Hin. apply filter_In in Hin. apply Hin. }
      pose proof (ascending_least x l1 y Ha1 Hy).
      pose proof (ascending_least y l2 x Ha2 Hx). lia. }
    assert (Heq : x = y).
    { specialize (Hf (address x)). cbn [filter] in Hf.
      rewrite <- Hxy, Z.eqb_refl in Hf. injection Hf as Hf _. exact Hf. }
    subst y. f_equal. apply IH.
    + destruct l1; [exact I | apply Ha1].
    + destruct l2; [exact I | apply Ha2].
    + intros a. specialize (Hf a). cbn [filter] in Hf.
      destruct (address x =? a); [injection Hf as Hf|]; exact Hf.
Qed.

(** X17. The result of the sort of [sortDataStructures] is determined by
    what [std::list::sort] promises: a list in ascending order of the
    addresses that keeps, for every address, the extents that start there
    in their input order, is the sorted list. *)
Theorem list_sort_unique :
  forall l sorted,
    ascending sorted ->
    (forall a, filter (fun x => address x =? a) sorted
               = filter (fun x => address x =? a) l) ->
    sorted = list_sort l.
Proof.
  intros l sorted Hasc Hstable.
  apply stable_ascending_unique; [exact Hasc | apply list_sort_ascending|].
  intros a. rewrite Hstable, list_sort_stable. reflexivity.
Qed.

(** Two extents at one address and one below them. *)
Lemma list_sort_unique_run :
  [extent "C" 5 1; extent "A" 10 4; extent "B" 10 2]
  = list_sort [extent "A" 10 4; extent "B" 10 2; extent "C" 5 1].
Proof.
  apply list_sort_unique.
  - cbn. lia.
  - intros a. cbn [filter extent address].
    destruct (Z.eqb_spec 5 a) as [<-|H5]; [reflexivity|].
    destruct (10 =? a); reflexivity.
Defined.
